(** * promxy: the backend-group manager ([servergroup]) and the query
    adapter ([proxyquerier])

  A shallow embedding of [servergroup/servergroup.go] and of the
  [ProxyQuerier] of package [proxyquerier], with the properties of the
  discovery reconciliation loop, of [ApplyConfig], of the query entry
  points and of the query adapter.

  Conventions.
  - A Go computation that can panic is a value of [Go A]: either [Ret a]
    or [Panic p].  A Go function returning [(T, error)] returns a pair
    whose second component is an [option error] ([None] is Go's [nil]);
    a constructor of another package whose value is only used when the
    error is nil returns a sum, [inl] the value or [inr] the error.
  - A Go pointer that can be [nil] is an [option]; dereferencing [None]
    panics ([deref]).
  - [model.LabelSet] (a Go [map[LabelName]LabelValue]) is a
    [gmap string string].
  - Code of other packages (the relabeling engine, URL printing, the HTTP
    client constructors, the discovery manager, the backends behind
    [promclient.API]) is not part of the program: it is collected in the
    classes [ExtTypes] and [Ext], and every definition and theorem is
    generic in them. *)

From Stdlib Require Import String ZArith List.
From stdpp Require Import base option gmap strings list fin_maps.

Open Scope string_scope.
Open Scope list_scope.
Open Scope Z_scope.

(** ** Go errors and panics *)

(** [errors.New], [errors.Wrap] of github.com/pkg/errors, and errors made by
  code outside the packages modelled here. *)
Inductive error : Type :=
| errors_New (message : string)
| errors_Wrap (cause : error) (message : string)
| ForeignError (description : string).

(** [errors.Cause]: unwrap until an error that carries no cause. *)
Fixpoint errors_Cause (err : error) : error :=
  match err with
  | errors_Wrap cause _ => errors_Cause cause
  | _ => err
  end.

Inductive panicValue : Type :=
| PanicError (err : error)             (* panic(err) *)
| PanicNilDereference                  (* runtime error: nil pointer dereference *)
| PanicCloseOfClosedChannel.           (* close of closed channel *)

Inductive Go (A : Type) : Type :=
| Ret (a : A)
| Panic (p : panicValue).
Arguments Ret {A} a.
Arguments Panic {A} p.

#[global] Instance Go_ret : MRet Go := fun _ a => Ret a.
#[global] Instance Go_bind : MBind Go := fun _ _ f m =>
  match m with
  | Ret a => f a
  | Panic p => Panic p
  end.
#[global] Instance Go_fmap : FMap Go := fun _ _ f m =>
  match m with
  | Ret a => Ret (f a)
  | Panic p => Panic p
  end.

(** Dereference of a pointer that may be nil. *)
Definition deref {A : Type} (p : option A) : Go A :=
  match p with
  | Some a => Ret a
  | None => Panic PanicNilDereference
  end.

(** A [for _, x := range xs] loop whose body updates the loop-carried
  variables [acc] and may panic. *)
Fixpoint forRange {A B : Type} (body : B -> A -> Go B) (acc : B) (xs : list A) : Go B :=
  match xs with
  | [] => Ret acc
  | x :: rest => acc' ← body acc x; forRange body acc' rest
  end.

(** ** Package [model] of prometheus/common *)
Module model.

Definition AddressLabel : string := "__address__".
Definition ReservedLabelPrefix : string := "__".

(** [LabelSet.Merge]: a copy of [l] in which the entries of [other] are
    written afterwards, so [other] wins on a shared name. *)
Definition Merge (l other : gmap string string) : gmap string string :=
  other ∪ l.

(** [l[name]] on a Go map: the zero value when the key is absent. *)
Definition index (l : gmap string string) (name : string) : string :=
  default "" (l !! name).

(** Sample values are [float64]: they are kept as their IEEE-754 bit
    pattern, so that the zero value of the type is [0].  Timestamps are
    [int64] milliseconds. *)
Record Sample : Type :=
  { Metric : gmap string string;
    Value : Z;
    Timestamp : Z }.

Record SamplePair : Type :=
  { SamplePair_Timestamp : Z; SamplePair_Value : Z }.

Record SampleStream : Type :=
  { SampleStream_Metric : gmap string string;
    Values : list SamplePair }.

(** The implementations of the interface [model.Value]. *)
Inductive Value_ : Type :=
| Scalar (value timestamp : Z)
| String_ (value : string) (timestamp : Z)
| Vector (samples : list Sample)
| Matrix (streams : list SampleStream).

End model.

(** ** Package [url] *)
Module url.
Record URL : Type := { Scheme : string; Host : string; Path : string }.
End url.

(** ** Package [targetgroup] of the discovery subsystem *)
Module targetgroup.
Record Group : Type :=
  { Targets : list (gmap string string);
    Labels : gmap string string;
    Source : string }.
End targetgroup.

(** ** Types of the external collaborators *)
Class ExtTypes : Type :=
  { RelabelConfig : Type;           (* relabel.Config *)
    TLSConfig : Type;               (* config_util.TLSConfig *)
    tlsConfig : Type;               (* tls.Config *)
    ServiceDiscoveryConfig : Type;  (* sd_config.ServiceDiscoveryConfig *)
    Manager : Type;                 (* discovery.Manager *)
    apiClient : Type;               (* api.Client *)
    remoteClient : Type;            (* remote.Client *)
    Time : Type;                    (* time.Time *)
    Matcher : Type;                 (* labels.Matcher *)
    Range : Type;                   (* v1.Range *)
    SeriesIterator : Type;          (* promclient.SeriesIterator *)
    PromxyConfig : Type }.          (* proxyconfig.PromxyConfig *)

(** ** The interface [promclient.API]

  The five query operations; the context argument is left out.  A result
  of interface type [model.Value] can be nil, hence the [option]. *)
Class promclient_API `{T : ExtTypes} (C : Type) : Type :=
{ API_GetValue : C -> Time -> Time -> list Matcher -> option model.Value_ * option error;
  API_Query : C -> string -> Time -> option model.Value_ * option error;
  API_QueryRange : C -> string -> Range -> option model.Value_ * option error;
  API_LabelValues : C -> string -> list string * option error;
  API_Series : C -> list string -> Time -> Time -> list (gmap string string) * option error }.

Module servergroup.
Section WithTypes.
Context `{T : ExtTypes}.

(** *** Configuration *)

Record BasicAuth : Type :=
  { Username : string; Password : string; PasswordFile : string }.

(** [config_util.HTTPClientConfig]; [ProxyURL.URL] is a pointer. *)
Record HTTPClientConfig : Type :=
  { HTTPClientConfig_TLSConfig : TLSConfig;
    ProxyURL : option url.URL;
    BearerToken : string;
    BearerTokenFile : string;
    HTTPClientConfig_BasicAuth : option BasicAuth }.

(** The [HTTPConfig] field of a server group's [Config]: a dial timeout
    and the embedded [config_util.HTTPClientConfig]. *)
Record HTTPConfig : Type :=
  { DialTimeout : Z;
    HTTPConfig_HTTPConfig : HTTPClientConfig }.

(** The fields of [Config] that [servergroup.go] reads. *)
Record Config : Type :=
  { RelabelConfigs : list RelabelConfig;
    PathPrefix : string;
    RemoteRead : bool;
    Labels : gmap string string;
    IgnoreError : bool;
    Config_HTTPConfig : HTTPConfig;
    Hosts : ServiceDiscoveryConfig }.

(** *** HTTP transport *)

Record Transport : Type :=
  { Proxy : option url.URL;
    MaxIdleConns : Z;
    MaxIdleConnsPerHost : Z;
    DisableKeepAlives : bool;
    TLSClientConfig : tlsConfig;
    DisableCompression : bool;
    IdleConnTimeout : Z;
    DialContext : Z }.                (* the dialer's Timeout *)

Inductive RoundTripper : Type :=
| http_Transport (t : Transport)
| NewBearerAuthRoundTripper (token : string) (rt : RoundTripper)
| NewBearerAuthFileRoundTripper (tokenFile : string) (rt : RoundTripper)
| NewBasicAuthRoundTripper (username password passwordFile : string) (rt : RoundTripper).

Record http_Client : Type := { Client_Transport : RoundTripper }.

(** *** Clients of package [promclient] *)

Record remote_ClientConfig : Type :=
  { ClientConfig_URL : url.URL; ClientConfig_Timeout : Z }.

Inductive v1_API : Type := v1_NewAPI (client : apiClient).

(** The decorators and composites that [Sync] builds.  [NewMultiAPI]
    records its arguments; the metric callback closes over the target
    list, which is what it is represented by. *)
#[local] Unset Elimination Schemes.
Inductive API : Type :=
| PromAPIV1 (promAPIClient : v1_API)
| PromAPIRemoteRead (promAPIClient : v1_API) (remoteStorageClient : remoteClient)
| AddLabelClient (inner : API) (labels : gmap string string)
| NewMultiAPI (apis : list API) (antiAffinity : Time)
              (metricFuncTargets : list string) (requiredCount : Z)
| IgnoreErrorAPI (inner : API).
#[local] Set Elimination Schemes.

(** *** The server group *)

Record ServerGroupState : Type :=
  { Targets : list string;
    ServerGroupState_apiClient : API }.

Inductive chan : Type := ChanOpen | ChanClosed.

(** [ctx] and [ctxCancel] only serve [Cancel] and are left out.  [state]
    is the [atomic.Value]: [None] until the first [Store]. *)
Record ServerGroup : Type :=
  { loaded : bool;
    Ready : chan;
    Cfg : option Config;
    Client : option http_Client;
    targetManager : Manager;
    OriginalURLs : list string;
    state : option ServerGroupState }.

(** *** The collaborators of [servergroup.go]

  Functions of other packages, and the two accessor methods of [Config]
  ([GetScheme], [GetAntiAffinity]) whose file is not part of the sources
  at hand.  [API_methods] is the implementation of [promclient.API] by the
  clients of package [promclient]. *)
Class Ext : Type :=
{ relabel_Process : gmap string string -> list RelabelConfig -> option (gmap string string);
  GetScheme : Config -> string;
  GetAntiAffinity : Config -> Time;
  url_String : url.URL -> string;
  path_Join : string -> string -> string;
  api_NewClient : string -> RoundTripper -> apiClient + error;
  remote_NewClient : Z -> remote_ClientConfig -> remoteClient + error;
  NewTLSConfig : TLSConfig -> tlsConfig + error;
  discovery_NewManager : Manager;
  Manager_ApplyConfig : Manager -> gmap string ServiceDiscoveryConfig -> Manager * option error;
  API_methods :: promclient_API API }.

Context `{E : Ext}.

(** [New]: the fields of a fresh server group.  The two goroutines it
  starts are the discovery manager and [Sync]. *)
Definition New : ServerGroup :=
  {| loaded := false;
     Ready := ChanOpen;
     Cfg := None;
     Client := None;
     targetManager := discovery_NewManager;
     OriginalURLs := [];
     state := None |}.

(** *** [Sync] *)

(** Lines 142-146: range over the label set and delete every name that
  starts with the reserved prefix. *)
Definition removePrivateLabels (target : gmap string string) : gmap string string :=
  map_fold (fun name _ t =>
              if String.prefix model.ReservedLabelPrefix name then delete name t else t)
           target target.

Definition time_Minute : Z := 60 * 1000000000.

(** Lines 121-139: the typed client of one target. *)
Definition newAPIClient (cfg : Config) (u : url.URL) (client : apiClient) : Go API :=
  let promAPIClient := v1_NewAPI client in
  if RemoteRead cfg then
    let u := {| url.Scheme := url.Scheme u;
                url.Host := url.Host u;
                url.Path := path_Join (url.Path u) "api/v1/read" |} in
    let cfg := {| ClientConfig_URL := u;
                  ClientConfig_Timeout := time_Minute * 2 |} in
    match remote_NewClient 1 cfg with
    | inr err => Panic (PanicError err)
    | inl remoteStorageClient =>
        Ret (PromAPIRemoteRead promAPIClient remoteStorageClient)
    end
  else Ret (PromAPIV1 promAPIClient).

(** Lines 109-113: the URL of a relabeled target. *)
Definition targetURL (cfg : Config) (target : gmap string string) : url.URL :=
  {| url.Scheme := GetScheme cfg;
     url.Host := model.index target model.AddressLabel;
     url.Path := PathPrefix cfg |}.

(** Lines 103-148: the body of the innermost loop.  The loop-carried
  variables are [targets] and [apiClients]. *)
Definition syncTarget (s : ServerGroup) (acc : list string * list API)
    (target : gmap string string) : Go (list string * list API) :=
  let '(targets, apiClients) := acc in
  cfg ← deref (Cfg s);
  match relabel_Process target (RelabelConfigs cfg) with
  | None => Ret (targets, apiClients)                            (* continue *)
  | Some target =>
      let u := targetURL cfg target in
      let targets := targets ++ [url.Host u] in
      httpClient ← deref (Client s);
      match api_NewClient (url_String u) (Client_Transport httpClient) with
      | inr err => Panic (PanicError err)
      | inl client =>
          apiClient ← newAPIClient cfg u client;
          let target := removePrivateLabels target in
          Ret (targets,
               apiClients ++ [AddLabelClient apiClient (model.Merge target (Labels cfg))])
      end
  end.

(** Lines 96-164: one discovery update, up to the new state.  The update is
  the Go map in the order in which [range] visits it.  The label sets of an
  update are values: the deletion of lines 142-146 acts on the result of
  relabeling, and what it does to a map that the discovery manager still
  holds is not part of this model. *)
Definition buildState (s : ServerGroup)
    (targetGroupMap : list (string * list targetgroup.Group)) : Go ServerGroupState :=
  '(targets, apiClients) ←
    forRange (fun acc targetGroupList =>
      forRange (fun acc targetGroup =>
        forRange (syncTarget s) acc (targetgroup.Targets targetGroup))
        acc targetGroupList.2)
      ([], []) targetGroupMap;
  cfg ← deref (Cfg s);
  let newState :=
    {| Targets := targets;
       ServerGroupState_apiClient :=
         NewMultiAPI apiClients (GetAntiAffinity cfg) targets 1 |} in
  Ret (if IgnoreError cfg
       then {| Targets := Targets newState;
               ServerGroupState_apiClient :=
                 IgnoreErrorAPI (ServerGroupState_apiClient newState) |}
       else newState).

(** What one iteration does to the outside: the [Store] of the snapshot
  and the [close] of [Ready]. *)
Inductive Event : Type :=
| EvStore (newState : ServerGroupState)
| EvCloseReady.

(** Lines 166-171. *)
Definition publish (s : ServerGroup) (newState : ServerGroupState)
  : Go (ServerGroup * list Event) :=
  let s := {| loaded := loaded s; Ready := Ready s; Cfg := Cfg s; Client := Client s;
              targetManager := targetManager s; OriginalURLs := OriginalURLs s;
              state := Some newState |} in
  if negb (loaded s) then
    match Ready s with
    | ChanClosed => Panic PanicCloseOfClosedChannel
    | ChanOpen =>
        Ret ({| loaded := true; Ready := ChanClosed; Cfg := Cfg s; Client := Client s;
                targetManager := targetManager s; OriginalURLs := OriginalURLs s;
                state := state s |},
             [EvStore newState; EvCloseReady])
    end
  else Ret (s, [EvStore newState]).

(** One iteration of the loop of [Sync]. *)
Definition syncIteration (s : ServerGroup)
    (targetGroupMap : list (string * list targetgroup.Group))
  : Go (ServerGroup * list Event) :=
  newState ← buildState s targetGroupMap;
  publish s newState.

(** [Sync] on the updates that [syncCh] delivers: the events of every
  completed iteration, and the server group when the channel is drained, or
  the panic that ended the loop. *)
Fixpoint Sync (s : ServerGroup)
    (syncCh : list (list (string * list targetgroup.Group)))
  : list (list Event) * Go ServerGroup :=
  match syncCh with
  | [] => ([], Ret s)
  | targetGroupMap :: rest =>
      match syncIteration s targetGroupMap with
      | Panic p => ([], Panic p)
      | Ret (s', evs) => let '(tr, r) := Sync s' rest in (evs :: tr, r)
      end
  end.


(** *** Vocabulary for the properties of [Sync] *)

(** The targets of an update, in the order in which the three loops visit
  them. *)
Definition allTargets (targetGroupMap : list (string * list targetgroup.Group))
  : list (gmap string string) :=
  targetGroupList ← targetGroupMap;
  targetGroup ← targetGroupList.2;
  targetgroup.Targets targetGroup.

(** The relabeled targets that relabeling did not drop. *)
Definition relabelAll (cfg : Config) (targets : list (gmap string string))
  : list (gmap string string) :=
  omap (fun target => relabel_Process target (RelabelConfigs cfg)) targets.

(** The relabeled targets of an update that relabeling did not drop. *)
Definition survivingTargets (cfg : Config)
    (targetGroupMap : list (string * list targetgroup.Group))
  : list (gmap string string) :=
  relabelAll cfg (allTargets targetGroupMap).

(** The resolved address of a relabeled target. *)
Definition resolvedAddress (target : gmap string string) : string :=
  model.index target model.AddressLabel.

(** The label set handed to the label-injection wrapper of a target. *)
Definition outputLabels (cfg : Config) (target : gmap string string)
  : gmap string string :=
  model.Merge (removePrivateLabels target) (Labels cfg).

(** The per-target clients under the merge layer of a composed client. *)
Definition leafClients (client : API) : list API :=
  match client with
  | NewMultiAPI apis _ _ _ => apis
  | IgnoreErrorAPI (NewMultiAPI apis _ _ _) => apis
  | _ => []
  end.

(** Both constructors of lines 116-139 succeed for a relabeled target. *)
Definition clientConstructs (cfg : Config) (httpClient : http_Client)
    (target : gmap string string) : Prop :=
  exists client api,
    api_NewClient (url_String (targetURL cfg target)) (Client_Transport httpClient)
      = inl client
    /\ newAPIClient cfg (targetURL cfg target) client = Ret api.

(** The target list as the specification words it: the resolved addresses
  of the surviving targets, deduplicated. *)
Definition deduplicatedTargets (cfg : Config)
    (targetGroupMap : list (string * list targetgroup.Group)) : list string :=
  remove_dups (map resolvedAddress (survivingTargets cfg targetGroupMap)).

(** *** [ApplyConfig] *)

Definition withCfg (s : ServerGroup) (cfg : option Config) : ServerGroup :=
  {| loaded := loaded s; Ready := Ready s; Cfg := cfg; Client := Client s;
     targetManager := targetManager s; OriginalURLs := OriginalURLs s;
     state := state s |}.

Definition withClient (s : ServerGroup) (client : option http_Client) : ServerGroup :=
  {| loaded := loaded s; Ready := Ready s; Cfg := Cfg s; Client := client;
     targetManager := targetManager s; OriginalURLs := OriginalURLs s;
     state := state s |}.

Definition withTargetManager (s : ServerGroup) (m : Manager) : ServerGroup :=
  {| loaded := loaded s; Ready := Ready s; Cfg := Cfg s; Client := Client s;
     targetManager := m; OriginalURLs := OriginalURLs s;
     state := state s |}.

(** Lines 186-209: the round tripper of a configuration. *)
Definition newRoundTripper (cfg : Config) (tls : tlsConfig) : RoundTripper :=
  let http := HTTPConfig_HTTPConfig (Config_HTTPConfig cfg) in
  let rt := http_Transport
    {| Proxy := ProxyURL http;
       MaxIdleConns := 20000;
       MaxIdleConnsPerHost := 1000;
       DisableKeepAlives := false;
       TLSClientConfig := tls;
       DisableCompression := true;
       IdleConnTimeout := 5 * time_Minute;
       DialContext := DialTimeout (Config_HTTPConfig cfg) |} in
  let rt :=
    if (0 <? String.length (BearerToken http))%nat
    then NewBearerAuthRoundTripper (BearerToken http) rt
    else if (0 <? String.length (BearerTokenFile http))%nat
    then NewBearerAuthFileRoundTripper (BearerTokenFile http) rt
    else rt in
  match HTTPClientConfig_BasicAuth http with
  | Some auth =>
      NewBasicAuthRoundTripper (Username auth) (Password auth) (PasswordFile auth) rt
  | None => rt
  end.

(** [ApplyConfig]: the server group after the call and the returned
  error.  [cfg] is a pointer. *)
Definition ApplyConfig (s : ServerGroup) (cfg : option Config)
  : Go (ServerGroup * option error) :=
  let s := withCfg s cfg in
  c ← deref cfg;
  match NewTLSConfig
          (HTTPClientConfig_TLSConfig (HTTPConfig_HTTPConfig (Config_HTTPConfig c))) with
  | inr err => Ret (s, Some (errors_Wrap err "error loading TLS client config"))
  | inl tls =>
      let rt := newRoundTripper c tls in
      let s := withClient s (Some {| Client_Transport := rt |}) in
      let '(m, err) := Manager_ApplyConfig (targetManager s) {[ "foo" := Hosts c ]} in
      let s := withTargetManager s m in
      match err with
      | Some err => Ret (s, Some err)
      | None => Ret (s, None)
      end
  end.

(** *** [State] and the query operations *)

(** [State]: the stored snapshot, or nil when the type assertion on the
  loaded value fails, that is when nothing was stored. *)
Definition State (s : ServerGroup) : option ServerGroupState :=
  match state s with
  | Some ret => Some ret
  | None => None
  end.

Definition GetValue (s : ServerGroup) (start end_ : Time) (matchers : list Matcher)
  : Go (option model.Value_ * option error) :=
  st ← deref (State s);
  Ret (API_GetValue (ServerGroupState_apiClient st) start end_ matchers).

Definition Query (s : ServerGroup) (query : string) (ts : Time)
  : Go (option model.Value_ * option error) :=
  st ← deref (State s);
  Ret (API_Query (ServerGroupState_apiClient st) query ts).

Definition QueryRange (s : ServerGroup) (query : string) (r : Range)
  : Go (option model.Value_ * option error) :=
  st ← deref (State s);
  Ret (API_QueryRange (ServerGroupState_apiClient st) query r).

Definition LabelValues (s : ServerGroup) (label : string)
  : Go (list string * option error) :=
  st ← deref (State s);
  Ret (API_LabelValues (ServerGroupState_apiClient st) label).

Definition Series (s : ServerGroup) (matches : list string) (startTime endTime : Time)
  : Go (list (gmap string string) * option error) :=
  st ← deref (State s);
  Ret (API_Series (ServerGroupState_apiClient st) matches startTime endTime).

(** *** The reconciliation loop next to configuration reloads

  [ApplyConfig] is called from another goroutine than [Sync]; at the grain
  of whole iterations an execution is a sequence of received updates and
  reloads.  [Sync] is the case without reloads. *)
Inductive Step : Type :=
| Received (targetGroupMap : list (string * list targetgroup.Group))
| Reload (cfg : option Config).

Fixpoint execution (s : ServerGroup) (steps : list Step)
  : list (list Event) * Go ServerGroup :=
  match steps with
  | [] => ([], Ret s)
  | Received targetGroupMap :: rest =>
      match syncIteration s targetGroupMap with
      | Panic p => ([], Panic p)
      | Ret (s', evs) => let '(tr, r) := execution s' rest in (evs :: tr, r)
      end
  | Reload cfg :: rest =>
      match ApplyConfig s cfg with
      | Panic p => ([], Panic p)
      | Ret (s', _) => let '(tr, r) := execution s' rest in ([] :: tr, r)
      end
  end.

(** Whether the events of an iteration hold a [Store], a [close]. *)
Definition isStore (e : Event) : bool :=
  match e with EvStore _ => true | EvCloseReady => false end.

Definition isClose (e : Event) : bool :=
  match e with EvCloseReady => true | EvStore _ => false end.

Definition storesSnapshot (evs : list Event) : bool := existsb isStore evs.
Definition closesReady (evs : list Event) : bool := existsb isClose evs.

(** How often [Ready] was closed in a trace. *)
Definition closeCount (tr : list (list Event)) : nat :=
  length (List.filter isClose (concat tr)).

(** *** Vocabulary for the transport and the per-target clients *)

(** The authentication wrappers of [config_util]. *)
Inductive AuthKind : Type := AuthBearerToken | AuthBearerTokenFile | AuthBasic.

(** The wrappers around a round tripper, the outermost first. *)
Fixpoint authLayers (rt : RoundTripper) : list AuthKind :=
  match rt with
  | http_Transport _ => []
  | NewBearerAuthRoundTripper _ rt => AuthBearerToken :: authLayers rt
  | NewBearerAuthFileRoundTripper _ rt => AuthBearerTokenFile :: authLayers rt
  | NewBasicAuthRoundTripper _ _ _ rt => AuthBasic :: authLayers rt
  end.

(** The [http.Transport] under the wrappers. *)
Fixpoint baseTransport (rt : RoundTripper) : Transport :=
  match rt with
  | http_Transport t => t
  | NewBearerAuthRoundTripper _ rt => baseTransport rt
  | NewBearerAuthFileRoundTripper _ rt => baseTransport rt
  | NewBasicAuthRoundTripper _ _ _ rt => baseTransport rt
  end.

(** The remote-read endpoint of a target URL (lines 125-130). *)
Definition remoteReadConfig (u : url.URL) : remote_ClientConfig :=
  {| ClientConfig_URL :=
       {| url.Scheme := url.Scheme u;
          url.Host := url.Host u;
          url.Path := path_Join (url.Path u) "api/v1/read" |};
     ClientConfig_Timeout := time_Minute * 2 |}.

(** [leaf] is the client that lines 116-148 build for the relabeled
  [target] under [cfg] with the transport of [httpClient]. *)
Definition leafFor (cfg : Config) (httpClient : http_Client)
    (target : gmap string string) (leaf : API) : Prop :=
  exists client,
    api_NewClient (url_String (targetURL cfg target)) (Client_Transport httpClient)
      = inl client
    /\ if RemoteRead cfg
       then exists remoteStorageClient,
              remote_NewClient 1 (remoteReadConfig (targetURL cfg target))
                = inl remoteStorageClient
              /\ leaf = AddLabelClient
                          (PromAPIRemoteRead (v1_NewAPI client) remoteStorageClient)
                          (outputLabels cfg target)
       else leaf = AddLabelClient (PromAPIV1 (v1_NewAPI client))
                                  (outputLabels cfg target).

(** The composed client of lines 157-164 over the given leaves. *)
Definition composedClient (cfg : Config) (leaves : list API) (targets : list string)
  : API :=
  let multi := NewMultiAPI leaves (GetAntiAffinity cfg) targets 1 in
  if IgnoreError cfg then IgnoreErrorAPI multi else multi.

(** What [loaded], [Ready] and the snapshot have to do with each other. *)
Definition ready_invariant (s : ServerGroup) : Prop :=
  (loaded s = false /\ Ready s = ChanOpen /\ state s = None)
  \/ (loaded s = true /\ Ready s = ChanClosed /\ is_Some (state s)).

End WithTypes.
End servergroup.

(** ** Package [proxyconfig] *)
Module proxyconfig.
Section WithConfig.

(** [config.Config] of prometheus, and the [Config] of this package with
  its embedded field [PromConfig]; the declaration of [Config] is not part
  of the sources at hand. *)
Context {promConfig Config : Type} (PromConfig : Config -> promConfig).

(** The interfaces [PromReloadable] and [Reloadable].  An implementation
  has a pointer receiver: the method returns the receiver after the call
  next to the error. *)
Class PromReloadable (R : Type) : Type :=
  PromReloadable_ApplyConfig : R -> option promConfig -> Go (R * option error).

Class Reloadable (R : Type) : Type :=
  Reloadable_ApplyConfig : R -> option Config -> Go (R * option error).

Record PromReloadableWrap (R : Type) : Type := { R_ : R }.
Arguments R_ {R} _.

(** [PromReloadableWrap.ApplyConfig]: [&c.PromConfig] dereferences [c]. *)
#[global] Instance PromReloadableWrap_ApplyConfig {R : Type} `{!PromReloadable R}
  : Reloadable (PromReloadableWrap R) := fun p c =>
  cfg ← deref c;
  '(r, err) ← PromReloadable_ApplyConfig (R_ p) (Some (PromConfig cfg));
  Ret ({| R_ := r |}, err).

Definition WrapPromReloadable {R : Type} (p : R) : PromReloadableWrap R :=
  {| R_ := p |}.

(** [ApplyConfigFunc]: a function taken as a [PromReloadable]. *)
Record ApplyConfigFunc : Type := { F : option promConfig -> Go (option error) }.

#[global] Instance ApplyConfigFunc_ApplyConfig : PromReloadable ApplyConfigFunc :=
  fun a cfg => err ← F a cfg; Ret (a, err).

End WithConfig.

Arguments R_ {R} _.
Arguments WrapPromReloadable {R} p.

End proxyconfig.

(** ** Package [proxyquerier] *)
Module proxyquerier.
Section WithTypes.
Context `{T : ExtTypes}.

(** [storage.SelectParams]. *)
Record SelectParams : Type :=
  { SelectParams_Start : Z;
    SelectParams_End : Z;
    Step : Z;
    Func : string }.

(** [Series] wraps one iterator; [NewSeriesSet] keeps the slice it is
  given. *)
Record Series_ : Type := { iterator : SeriesIterator }.

Inductive SeriesSet : Type := NewSeriesSet (series : list Series_).

(** The calls that reach the client, with their arguments. *)
Inductive Call : Type :=
| CallSeries (matches : list string) (startTime endTime : Time)
| CallGetValue (start end_ : Time) (matchers : list Matcher)
| CallLabelValues (label : string).

(** A computation together with the client calls it issued, in order. *)
Record Traced (A : Type) : Type := traced { calls : list Call; result : A }.
Arguments traced {A} calls result.
Arguments calls {A} _.
Arguments result {A} _.

#[global] Instance Traced_ret : MRet Traced := fun _ a => traced [] a.
#[global] Instance Traced_bind : MBind Traced := fun _ _ f m =>
  let r := f (result m) in traced (calls m ++ calls r) (result r).

(** Functions of other packages: [promhttputil.MatcherToString],
  [timestamp.Time] and [promclient.IteratorsForValue]. *)
Class Ext : Type :=
{ MatcherToString : list Matcher -> string * option error;
  timestamp_Time : Z -> Time;
  IteratorsForValue : option model.Value_ -> list SeriesIterator }.

Context `{E : Ext}.
Context {C : Type} `{A : !promclient_API C}.

Record ProxyQuerier : Type :=
  { Start : Time;
    End_ : Time;
    Client : C;
    Cfg : option PromxyConfig }.

Definition Client_Series (h : ProxyQuerier) (matches : list string)
    (startTime endTime : Time) : Traced (list (gmap string string) * option error) :=
  traced [CallSeries matches startTime endTime]
         (API_Series (Client h) matches startTime endTime).

Definition Client_GetValue (h : ProxyQuerier) (start end_ : Time)
    (matchers : list Matcher) : Traced (option model.Value_ * option error) :=
  traced [CallGetValue start end_ matchers]
         (API_GetValue (Client h) start end_ matchers).

Definition Client_LabelValues (h : ProxyQuerier) (label : string)
  : Traced (list string * option error) :=
  traced [CallLabelValues label] (API_LabelValues (Client h) label).

(** Lines 69-80 of [Select]: the common tail of both modes. *)
Definition seriesSetOf (result : option model.Value_) (err : option error)
  : option SeriesSet * list error * option error :=
  let warnings : list error := [] in
  match err with
  | Some err => (None, warnings, Some (errors_Cause err))
  | None =>
      let iterators := IteratorsForValue result in
      let series := map (fun iterator => {| iterator := iterator |}) iterators in
      (Some (NewSeriesSet series), warnings, None)
  end.

(** [Select].  [selectParams] is a pointer; the deferred debug log is left
  out.  In the metadata branch [err] is a new variable of the block, so the
  outer [err] is still nil when the block is left. *)
Definition Select (h : ProxyQuerier) (selectParams : option SelectParams)
    (matchers : list Matcher)
  : Traced (option SeriesSet * list error * option error) :=
  match selectParams with
  | None =>
      match MatcherToString matchers with
      | (_, Some err) => mret (None, [], Some err)
      | (matcherString, None) =>
          '(labelsets, err) ← Client_Series h [matcherString] (Start h) (End_ h);
          match err with
          | Some err => mret (None, [], Some (errors_Cause err))
          | None =>
              let retVector :=
                map (fun labelset => {| model.Metric := labelset;
                                        model.Value := 0;
                                        model.Timestamp := 0 |}) labelsets in
              mret (seriesSetOf (Some (model.Vector retVector)) None)
          end
      end
  | Some selectParams =>
      '(result, err) ← Client_GetValue h (timestamp_Time (SelectParams_Start selectParams))
                                         (timestamp_Time (SelectParams_End selectParams))
                                         matchers;
      mret (seriesSetOf result err)
  end.

(** The placeholder sample of a label set: its identity and no point. *)
Definition zeroPoint (labelset : gmap string string) : model.Sample :=
  {| model.Metric := labelset; model.Value := 0; model.Timestamp := 0 |}.

(** [LabelValues]. *)
Definition LabelValues (h : ProxyQuerier) (name : string)
  : Traced (list string * option error) :=
  '(result, err) ← Client_LabelValues h name;
  match err with
  | Some err => mret ([], Some (errors_Cause err))
  | None => mret (map (fun r => r) result, None)
  end.

(** [LabelNames]. *)
Definition LabelNames (h : ProxyQuerier) : list string * option error :=
  ([], Some (errors_New "Not implemented yet")).

(** [Close]: the querier after the call and the returned error. *)
Definition Close (h : ProxyQuerier) : ProxyQuerier * option error := (h, None).

(** [n] consecutive calls of [Close]: the querier at the end and the
  errors returned, in order. *)
Fixpoint CloseTimes (n : nat) (h : ProxyQuerier) : ProxyQuerier * list (option error) :=
  match n with
  | O => (h, [])
  | S n =>
      let '(h, err) := Close h in
      let '(h, errs) := CloseTimes n h in
      (h, err :: errs)
  end.

End WithTypes.

Arguments traced {T A} calls result.
Arguments calls {T A} _.
Arguments result {T A} _.

End proxyquerier.

(** ** A small concrete world

  One choice of the collaborators, on which the definitions above can be
  evaluated: a relabeling rule is the name of a label whose presence drops
  the target; a TLS configuration is the path of its CA file, and only the
  empty path and ["/etc/ssl/ca.pem"] load; URLs print as
  scheme://host/path; [api.NewClient] rejects the address whose host is
  an unterminated IPv6 literal, as [url.Parse] does; the discovery manager
  is the set of configurations applied to it; a backend client answers
  every query with nothing. *)
Module world.

Definition types : ExtTypes :=
  {| RelabelConfig := string;
     TLSConfig := string;
     tlsConfig := string;
     ServiceDiscoveryConfig := list string;
     Manager := gmap string (list string);
     apiClient := string;
     remoteClient := url.URL;
     Time := Z;
     Matcher := string;
     Range := Z * Z;
     SeriesIterator := model.Sample + model.SampleStream;
     PromxyConfig := unit |}.

Definition relabel_Process (labels : gmap string string) (cfgs : list string)
  : option (gmap string string) :=
  if existsb (fun name => bool_decide (is_Some (labels !! name))) cfgs
  then None else Some labels.

Definition url_String (u : url.URL) : string :=
  (url.Scheme u ++ "://" ++ url.Host u ++ url.Path u)%string.

Definition api_NewClient (address : string)
    (rt : servergroup.RoundTripper (T := types)) : string + error :=
  if String.eqb address "http://[::1"
  then inr (ForeignError "parse http://[::1: missing ']' in host")
  else inl address.

Definition NewTLSConfig (caFile : string) : string + error :=
  if String.eqb caFile "" then inl ""
  else if String.eqb caFile "/etc/ssl/ca.pem" then inl caFile
  else inr (ForeignError "unable to use specified CA cert").

Definition silent : promclient_API (T := types) (servergroup.API (T := types)) :=
  {| API_GetValue := fun _ _ _ _ => (None, None);
     API_Query := fun _ _ _ => (None, None);
     API_QueryRange := fun _ _ _ => (None, None);
     API_LabelValues := fun _ _ => ([], None);
     API_Series := fun _ _ _ _ => ([], None) |}.

Definition servergroup_ext : servergroup.Ext (T := types) :=
  @servergroup.Build_Ext types
    relabel_Process
    (fun _ => "http")                                     (* GetScheme *)
    (fun _ => 10000)                                      (* GetAntiAffinity *)
    url_String
    (fun a b => (a ++ "/" ++ b)%string)                   (* path_Join *)
    api_NewClient
    (fun _ cfg => inl (servergroup.ClientConfig_URL cfg)) (* remote_NewClient *)
    NewTLSConfig
    ∅                                                     (* discovery_NewManager *)
    (fun _ cfgs => (cfgs, None))                          (* Manager_ApplyConfig *)
    silent.

(** A backend of the query adapter: the label sets of the series it holds.
  [Series] lists them all, [GetValue] answers with one sample per series. *)
Definition backend : promclient_API (T := types) (list (gmap string string)) :=
  {| API_GetValue := fun c _ _ _ =>
       (Some (model.Vector
                (map (fun l => {| model.Metric := l; model.Value := 0;
                                  model.Timestamp := 1000 |}) c)), None);
     API_Query := fun _ _ _ => (None, None);
     API_QueryRange := fun _ _ _ => (None, None);
     API_LabelValues := fun _ _ => ([], None);
     API_Series := fun c _ _ _ => (c, None) |}.

Definition IteratorsForValue (v : option model.Value_)
  : list (model.Sample + model.SampleStream) :=
  match v with
  | Some (model.Vector samples) => map inl samples
  | Some (model.Matrix streams) => map inr streams
  | _ => []
  end.

Definition proxyquerier_ext : proxyquerier.Ext (T := types) :=
  @proxyquerier.Build_Ext types
    (fun matchers => (("{" ++ String.concat "," matchers ++ "}")%string, None))
    (fun t => t)                                          (* timestamp_Time *)
    IteratorsForValue.

(** A configuration with the given CA file and relabeling rules. *)
Definition config (caFile : string) (rules : list string)
  : servergroup.Config (T := types) :=
  @servergroup.Build_Config types
    rules                                                 (* RelabelConfigs *)
    ""                                                    (* PathPrefix *)
    false                                                 (* RemoteRead *)
    {[ "cluster" := "eu" ]}                               (* Labels *)
    false                                                 (* IgnoreError *)
    (@servergroup.Build_HTTPConfig types 200000000
       (@servergroup.Build_HTTPClientConfig types caFile None "" "" None))
    ["a:9090"; "b:9090"].                                 (* Hosts *)

(** A server group right after [New]. *)
Definition fresh : servergroup.ServerGroup (T := types) :=
  servergroup.New (E := servergroup_ext).

(** A server group whose configuration [config "" rules] was applied. *)
Definition configured (rules : list string) : servergroup.ServerGroup (T := types) :=
  match servergroup.ApplyConfig (E := servergroup_ext) fresh (Some (config "" rules)) with
  | Ret (s, _) => s
  | Panic _ => fresh
  end.

(** A discovery update with one job and one group of the given targets. *)
Definition update (targets : list (gmap string string))
  : list (string * list targetgroup.Group) :=
  [("foo", [ {| targetgroup.Targets := targets;
                targetgroup.Labels := ∅;
                targetgroup.Source := "0" |} ])].

Definition target (address job : string) : gmap string string :=
  {[ "__address__" := address; "__meta_job" := job; "job" := job ]}.

Definition querier (series : list (gmap string string))
  : proxyquerier.ProxyQuerier (T := types) (C := list (gmap string string)) :=
  @proxyquerier.Build_ProxyQuerier types (list (gmap string string))
    1000 2000 series None.

(** Two targets that resolve to the same address, and one that the rule
  ["drop"] drops. *)
Definition replicas : list (gmap string string) :=
  [ target "a:9090" "x";
    <[ "drop" := "1" ]> (target "b:9090" "y");
    target "a:9090" "z" ].



(** A client that answers [LabelValues] with the values it holds. *)
Definition labelled : promclient_API (T := types) (list string) :=
  {| API_GetValue := fun _ _ _ _ => (None, None);
     API_Query := fun _ _ _ => (None, None);
     API_QueryRange := fun _ _ _ => (None, None);
     API_LabelValues := fun c _ => (c, None);
     API_Series := fun _ _ _ _ => ([], None) |}.

(** The server group [configured ["drop"]] after the update [replicas]. *)
Definition published : servergroup.ServerGroup (T := types) :=
  match servergroup.syncIteration (E := servergroup_ext)
          (configured ["drop"]) (update replicas) with
  | Ret (s, _) => s
  | Panic _ => fresh
  end.

End world.

(** * Properties *)

(** ** Loops *)
Section Loops.
Context {A B : Type}.
Implicit Types (body : B -> A -> Go B) (acc : B) (xs : list A).

Lemma forRange_app body acc xs ys :
  forRange body acc (xs ++ ys) = acc' ← forRange body acc xs; forRange body acc' ys.
Proof.
  revert acc. induction xs as [|x xs IH]; intros acc; simpl; [done|].
  destruct (body acc x) as [acc'|p]; simpl; [apply IH | done].
Qed.

Lemma forRange_ext body body' acc xs :
  (forall acc x, body acc x = body' acc x) ->
  forRange body acc xs = forRange body' acc xs.
Proof.
  intros Hext. revert acc. induction xs as [|x xs IH]; intros acc; simpl; [done|].
  rewrite Hext. destruct (body' acc x); simpl; [apply IH | done].
Qed.

(** A loop nest is one loop over the concatenation of the inner ranges. *)
Lemma forRange_nested {X : Type} body (inner : X -> list A) acc (ls : list X) :
  forRange (fun acc l => forRange body acc (inner l)) acc ls
  = forRange body acc (l ← ls; inner l).
Proof.
  revert acc. induction ls as [|l ls IH]; intros acc; simpl; [done|].
  rewrite forRange_app.
  destruct (forRange body acc (inner l)) as [acc'|p]; simpl; [apply IH | done].
Qed.

(** A loop panics only where an iteration of it does. *)
Lemma forRange_Panic body acc xs p :
  forRange body acc xs = Panic p ->
  exists acc' x, x ∈ xs /\ body acc' x = Panic p.
Proof.
  revert acc. induction xs as [|x xs IH]; intros acc; simpl; [done|].
  destruct (body acc x) as [acc'|p'] eqn:Hbody; simpl.
  - intros Hrest. apply IH in Hrest as (acc'' & x' & Hin & Hpanic).
    exists acc'', x'. split; [apply elem_of_cons; by right | done].
  - intros [= ->]. exists acc, x. split; [apply elem_of_cons; by left | done].
Qed.

End Loops.

Module ServerGroupSpec.
Import servergroup.

Section WithWorld.
Context `{E : Ext}.

(** *** Reserved labels *)

(** The deletion loop started on [b] and ranging over [m]. *)
Lemma deletion_loop_lookup (b m : gmap string string) (name : string) :
  map_fold (fun name _ t =>
              if String.prefix model.ReservedLabelPrefix name
              then delete name t else t) b m !! name
  = if String.prefix model.ReservedLabelPrefix name
    then match m !! name with Some _ => None | None => b !! name end
    else b !! name.
Proof.
  revert name.
  apply (map_fold_weak_ind
    (fun r (m : gmap string string) => forall name,
       r !! name = if String.prefix model.ReservedLabelPrefix name
                   then match m !! name with Some _ => None | None => b !! name end
                   else b !! name)).
  - intros name. rewrite lookup_empty. by destruct (String.prefix _ name).
  - intros i x m' r Hfresh IH name.
    destruct (decide (i = name)) as [->|Hne].
    + rewrite lookup_insert_eq.
      destruct (String.prefix _ name) eqn:Hp.
      * apply lookup_delete_eq.
      * specialize (IH name). by rewrite Hp in IH.
    + rewrite lookup_insert_ne by done.
      destruct (String.prefix _ i).
      * rewrite lookup_delete_ne by done. apply IH.
      * apply IH.
Qed.

(** After lines 142-146 the label set holds no reserved name and every
  other label is as it was. *)
Lemma removePrivateLabels_lookup (target : gmap string string) (name : string) :
  removePrivateLabels target !! name
  = if String.prefix model.ReservedLabelPrefix name then None else target !! name.
Proof.
  unfold removePrivateLabels. rewrite deletion_loop_lookup.
  destruct (String.prefix _ name); [|done].
  by destruct (target !! name) eqn:Hl.
Qed.

Lemma outputLabels_reserved (cfg : Config) (target : gmap string string) (name : string) :
  String.prefix model.ReservedLabelPrefix name = true ->
  outputLabels cfg target !! name = Labels cfg !! name.
Proof.
  intros Hp. unfold outputLabels, model.Merge.
  rewrite lookup_union_l; [done|].
  by rewrite removePrivateLabels_lookup, Hp.
Qed.

(** *** One target *)

Lemma newAPIClient_cases (cfg : Config) (u : url.URL) (client : apiClient) :
  (exists api, newAPIClient cfg u client = Ret api)
  \/ (exists err, newAPIClient cfg u client = Panic (PanicError err)).
Proof.
  unfold newAPIClient. destruct (RemoteRead cfg); [|eauto].
  destruct (remote_NewClient _ _); eauto.
Qed.

(** What a completed iteration of the innermost loop did to [targets] and
  [apiClients]. *)
Lemma syncTarget_Ret (s : ServerGroup) (cfg : Config) targets apiClients target acc' :
  Cfg s = Some cfg ->
  syncTarget s (targets, apiClients) target = Ret acc' ->
  match relabel_Process target (RelabelConfigs cfg) with
  | None => acc' = (targets, apiClients)
  | Some target' =>
      exists inner,
        acc' = (targets ++ [resolvedAddress target'],
                apiClients ++ [AddLabelClient inner (outputLabels cfg target')])
  end.
Proof.
  intros Hcfg. unfold syncTarget. rewrite Hcfg. simpl.
  destruct (relabel_Process target (RelabelConfigs cfg)) as [target'|]; [|congruence].
  destruct (Client s) as [httpClient|]; simpl; [|done].
  destruct (api_NewClient _ _) as [client|err]; [|done].
  destruct (newAPIClient cfg (targetURL cfg target') client) as [inner|p]; simpl; [|done].
  intros [= <-]. by exists inner.
Qed.



(** The body never panics by closing a channel. *)
Lemma syncTarget_Panic (s : ServerGroup) acc target p :
  syncTarget s acc target = Panic p -> p <> PanicCloseOfClosedChannel.
Proof.
  unfold syncTarget. destruct acc as [targets apiClients].
  destruct (Cfg s) as [cfg|]; simpl; [|by intros [= <-]].
  destruct (relabel_Process target (RelabelConfigs cfg)) as [target'|]; [|done].
  destruct (Client s) as [httpClient|]; simpl; [|by intros [= <-]].
  destruct (api_NewClient _ _) as [client|err]; [|by intros [= <-]].
  destruct (newAPIClient_cases cfg (targetURL cfg target') client) as [[api ->]|[err ->]];
    simpl; [done|by intros [= <-]].
Qed.

(** *** The loop nest *)

#[local] Arguments syncTarget : simpl never.

Lemma forRange_syncTarget_Ret (s : ServerGroup) cfg ts :
  Cfg s = Some cfg ->
  forall targets apiClients targets' apiClients',
  forRange (syncTarget s) (targets, apiClients) ts = Ret (targets', apiClients') ->
  targets' = targets ++ map resolvedAddress (relabelAll cfg ts)
  /\ exists inner,
       length inner = length (relabelAll cfg ts)
       /\ apiClients' = apiClients
                        ++ zip_with AddLabelClient inner
                             (map (outputLabels cfg) (relabelAll cfg ts)).
Proof.
  intros Hcfg. unfold relabelAll.
  induction ts as [|t ts IH]; intros targets apiClients targets' apiClients'.
  - simpl. intros [= <- <-]. split; [by rewrite app_nil_r|].
    exists []. split; [done|]. by rewrite app_nil_r.
  - simpl. destruct (syncTarget s (targets, apiClients) t) as [acc'|p] eqn:Hbody;
      simpl; [|done].
    apply (syncTarget_Ret s cfg) in Hbody; [|done].
    destruct (relabel_Process t (RelabelConfigs cfg)) as [t'|].
    + destruct Hbody as [inner0 ->]. intros Hrest.
      apply IH in Hrest as [-> [inner [Hlen ->]]].
      split; [by rewrite <- app_assoc|].
      exists (inner0 :: inner). split; [simpl; by rewrite Hlen|].
      by rewrite <- app_assoc.
    + subst acc'. apply IH.
Qed.


(** The three loops of lines 99-151 are one loop over [allTargets]. *)
Lemma loops_flatten (s : ServerGroup) acc
    (targetGroupMap : list (string * list targetgroup.Group)) :
  forRange (fun acc targetGroupList =>
    forRange (fun acc targetGroup =>
      forRange (syncTarget s) acc (targetgroup.Targets targetGroup))
      acc targetGroupList.2)
    acc targetGroupMap
  = forRange (syncTarget s) acc (allTargets targetGroupMap).
Proof.
  unfold allTargets. rewrite <- forRange_nested.
  apply forRange_ext. intros acc' l. apply forRange_nested.
Qed.

Lemma forRange_syncTarget_total (s : ServerGroup) cfg httpClient ts :
  Cfg s = Some cfg -> Client s = Some httpClient ->
  Forall (clientConstructs cfg httpClient) (relabelAll cfg ts) ->
  forall acc, exists acc', forRange (syncTarget s) acc ts = Ret acc'.
Proof.
  intros Hcfg Hclient. unfold relabelAll. induction ts as [|t ts IH]; intros Hall acc; simpl; [eauto|].
  revert Hall. csimpl.
  destruct (relabel_Process t (RelabelConfigs cfg)) as [t'|] eqn:Hrelabel.
  - intros Hall. apply Forall_cons in Hall as [(client & api & Hnew & Hapi) Hall].
    destruct acc as [targets apiClients].
    assert (syncTarget s (targets, apiClients) t
            = Ret (targets ++ [url.Host (targetURL cfg t')],
                   apiClients ++ [AddLabelClient api (outputLabels cfg t')])) as ->.
    { unfold syncTarget. rewrite Hcfg, Hclient. simpl.
      rewrite Hrelabel, Hnew, Hapi. done. }
    simpl. by apply IH.
  - intros Hall. destruct acc as [targets apiClients].
    assert (syncTarget s (targets, apiClients) t = Ret (targets, apiClients)) as ->.
    { unfold syncTarget. rewrite Hcfg. simpl. by rewrite Hrelabel. }
    simpl. by apply IH.
Qed.

(** *** One update *)

(** The state built from an update whose reconciliation completes. *)
Lemma buildState_Ret (s : ServerGroup) targetGroupMap newState :
  buildState s targetGroupMap = Ret newState ->
  exists cfg inner,
    Cfg s = Some cfg
    /\ Targets newState = map resolvedAddress (survivingTargets cfg targetGroupMap)
    /\ length inner = length (survivingTargets cfg targetGroupMap)
    /\ leafClients (ServerGroupState_apiClient newState)
       = zip_with AddLabelClient inner
           (map (outputLabels cfg) (survivingTargets cfg targetGroupMap)).
Proof.
  unfold buildState. rewrite loops_flatten.
  destruct (forRange (syncTarget s) ([], []) (allTargets targetGroupMap))
    as [[targets apiClients]|p] eqn:Hloop; simpl; [|done].
  destruct (Cfg s) as [cfg|] eqn:Hcfg; simpl; [|done].
  destruct (forRange_syncTarget_Ret s cfg _ Hcfg _ _ _ _ Hloop)
    as [Htargets [inner [Hlen Hclients]]].
  simpl in Htargets, Hclients. subst targets apiClients.
  intros [= <-]. exists cfg, inner. split; [done|].
  destruct (IgnoreError cfg); simpl; auto.
Qed.

Lemma buildState_total (s : ServerGroup) cfg httpClient targetGroupMap :
  Cfg s = Some cfg -> Client s = Some httpClient ->
  Forall (clientConstructs cfg httpClient) (survivingTargets cfg targetGroupMap) ->
  exists newState, buildState s targetGroupMap = Ret newState.
Proof.
  intros Hcfg Hclient Hall. unfold buildState. rewrite loops_flatten.
  destruct (forRange_syncTarget_total s cfg httpClient (allTargets targetGroupMap)
              Hcfg Hclient Hall ([], [])) as [[targets apiClients] ->].
  simpl. rewrite Hcfg. simpl. eauto.
Qed.


Lemma buildState_Panic (s : ServerGroup) targetGroupMap p :
  buildState s targetGroupMap = Panic p -> p <> PanicCloseOfClosedChannel.
Proof.
  unfold buildState. rewrite loops_flatten.
  destruct (forRange (syncTarget s) ([], []) (allTargets targetGroupMap))
    as [[targets apiClients]|p'] eqn:Hloop; simpl.
  - destruct (Cfg s); simpl; [done|by intros [= <-]].
  - intros [= ->]. apply forRange_Panic in Hloop as (acc' & x & _ & Hbody).
    by apply syncTarget_Panic in Hbody.
Qed.

(** Lines 166-171 on a server group and a new state. *)
Lemma publish_Ret (s : ServerGroup) newState s' evs :
  publish s newState = Ret (s', evs) ->
  state s' = Some newState /\ loaded s' = true
  /\ Cfg s' = Cfg s /\ Client s' = Client s /\ targetManager s' = targetManager s
  /\ (if loaded s
      then evs = [EvStore newState] /\ Ready s' = Ready s
      else evs = [EvStore newState; EvCloseReady]
           /\ Ready s = ChanOpen /\ Ready s' = ChanClosed).
Proof.
  unfold publish. simpl. destruct (loaded s) eqn:Hloaded; simpl.
  - intros [= <- <-]. simpl. auto 10.
  - destruct (Ready s); [|done]. intros [= <- <-]. simpl. auto 10.
Qed.

Lemma publish_total (s : ServerGroup) newState :
  (loaded s = false -> Ready s = ChanOpen) ->
  exists s' evs, publish s newState = Ret (s', evs).
Proof.
  intros Hready. unfold publish. simpl. destruct (loaded s); simpl; [eauto|].
  rewrite Hready by done. eauto.
Qed.

Lemma syncIteration_Ret (s : ServerGroup) targetGroupMap s' evs :
  syncIteration s targetGroupMap = Ret (s', evs) ->
  exists newState,
    buildState s targetGroupMap = Ret newState /\ publish s newState = Ret (s', evs).
Proof.
  unfold syncIteration.
  destruct (buildState s targetGroupMap) as [newState|p]; simpl; [eauto|done].
Qed.

Lemma zip_with_AddLabelClient (f : gmap string string -> gmap string string)
    (targets : list (gmap string string)) :
  forall inner : list API,
  length inner = length targets ->
  Forall2 (fun target client => exists api, client = AddLabelClient api (f target))
          targets (zip_with AddLabelClient inner (map f targets)).
Proof.
  induction targets as [|t targets IH]; intros [|api inner] Hlen; simpl in *;
    try done; constructor; eauto.
Qed.

(** *** The published snapshot *)

(** C1, as amended: the target list of the snapshot that an iteration of
  [Sync] publishes is the list of the resolved addresses of the relabeled,
  non-dropped targets of the update, in the order of the update and with
  one entry per surviving target (no deduplication); the merge layer holds
  one client per entry.  The iteration does publish whenever a
  configuration and an HTTP client are in place and the client constructors
  succeed on every surviving target. *)
Theorem Sync_publishes_surviving_targets (s : ServerGroup)
    (targetGroupMap : list (string * list targetgroup.Group)) :
  (forall s' evs,
     syncIteration s targetGroupMap = Ret (s', evs) ->
     exists cfg newState,
       Cfg s = Some cfg /\ state s' = Some newState /\ In (EvStore newState) evs
       /\ Targets newState = map resolvedAddress (survivingTargets cfg targetGroupMap)
       /\ length (leafClients (ServerGroupState_apiClient newState))
          = length (survivingTargets cfg targetGroupMap))
  /\ (forall cfg httpClient,
        Cfg s = Some cfg -> Client s = Some httpClient ->
        (loaded s = false -> Ready s = ChanOpen) ->
        Forall (clientConstructs cfg httpClient) (survivingTargets cfg targetGroupMap) ->
        exists s' evs, syncIteration s targetGroupMap = Ret (s', evs)).
Proof.
  split.
  - intros s' evs Hrun.
    apply syncIteration_Ret in Hrun as (newState & Hbuild & Hpublish).
    apply buildState_Ret in Hbuild as (cfg & inner & Hcfg & Htargets & Hlen & Hleaves).
    apply publish_Ret in Hpublish as (Hstate & _ & _ & _ & _ & Hevs).
    exists cfg, newState. repeat split; try done.
    + destruct (loaded s); destruct Hevs as [-> _]; simpl; auto.
    + rewrite Hleaves, length_zip_with, length_map. lia.
  - intros cfg httpClient Hcfg Hclient Hready Hall.
    destruct (buildState_total s cfg httpClient targetGroupMap Hcfg Hclient Hall)
      as [newState Hbuild].
    destruct (publish_total s newState Hready) as (s' & evs & Hpublish).
    exists s', evs. unfold syncIteration. by rewrite Hbuild.
Qed.

(** C6: in the snapshot that an iteration of [Sync] publishes, the client
  of every surviving target is a label-injection wrapper whose label set is
  the target's label set without its reserved names, merged with the static
  labels of the configuration: the stripped set has no name with the
  reserved prefix, so such a name is in the attached set only as far as the
  static labels carry it. *)
Theorem Sync_strips_reserved_labels (s : ServerGroup)
    (targetGroupMap : list (string * list targetgroup.Group)) s' evs :
  syncIteration s targetGroupMap = Ret (s', evs) ->
  exists cfg newState,
    Cfg s = Some cfg /\ state s' = Some newState
    /\ Forall2
         (fun target client =>
            exists api,
              client = AddLabelClient api
                         (model.Merge (removePrivateLabels target) (Labels cfg))
              /\ forall name,
                   String.prefix model.ReservedLabelPrefix name = true ->
                   removePrivateLabels target !! name = None
                   /\ model.Merge (removePrivateLabels target) (Labels cfg) !! name
                      = Labels cfg !! name)
         (survivingTargets cfg targetGroupMap)
         (leafClients (ServerGroupState_apiClient newState)).
Proof.
  intros Hrun.
  apply syncIteration_Ret in Hrun as (newState & Hbuild & Hpublish).
  apply buildState_Ret in Hbuild as (cfg & inner & Hcfg & _ & Hlen & Hleaves).
  apply publish_Ret in Hpublish as (Hstate & _).
  exists cfg, newState. split; [done|]. split; [done|].
  rewrite Hleaves.
  eapply Forall2_impl; [by apply zip_with_AddLabelClient|].
  intros target client [api ->]. exists api. split; [done|].
  intros name Hname. split.
  - by rewrite removePrivateLabels_lookup, Hname.
  - by apply outputLabels_reserved.
Qed.


(** *** [ApplyConfig] *)

(** What a call of [ApplyConfig] that returns has done. *)
Lemma ApplyConfig_Ret (s : ServerGroup) cfg s' err :
  ApplyConfig s cfg = Ret (s', err) ->
  exists c,
    cfg = Some c /\ Cfg s' = Some c
    /\ loaded s' = loaded s /\ Ready s' = Ready s /\ state s' = state s
    /\ OriginalURLs s' = OriginalURLs s
    /\ match NewTLSConfig
               (HTTPClientConfig_TLSConfig (HTTPConfig_HTTPConfig (Config_HTTPConfig c))) with
       | inr e =>
           err = Some (errors_Wrap e "error loading TLS client config")
           /\ Client s' = Client s /\ targetManager s' = targetManager s
       | inl tls =>
           Client s' = Some {| Client_Transport := newRoundTripper c tls |}
           /\ Manager_ApplyConfig (targetManager s) {[ "foo" := Hosts c ]}
              = (targetManager s', err)
       end.
Proof.
  unfold ApplyConfig. destruct cfg as [c|]; simpl; [|done].
  destruct (NewTLSConfig _) as [tls|e] eqn:Htls.
  - destruct (Manager_ApplyConfig _ _) as [m err'] eqn:Happly. simpl in Happly.
    destruct err' as [e|]; intros [= <- <-]; exists c; simpl; rewrite Htls;
      by repeat split.
  - intros [= <- <-]. exists c. simpl. rewrite Htls. by repeat split.
Qed.

Lemma ApplyConfig_Panic (s : ServerGroup) cfg p :
  ApplyConfig s cfg = Panic p -> p = PanicNilDereference.
Proof.
  unfold ApplyConfig. destruct cfg as [c|]; simpl; [|by intros [= <-]].
  destruct (NewTLSConfig _) as [tls|e]; [|done].
  destruct (Manager_ApplyConfig _ _) as [m [e|]]; done.
Qed.

(** C2, as amended: when [ApplyConfig] returns an error, the configuration
  of the failed call is the manager's configuration; the snapshot, the
  loaded flag, the readiness channel and the original URLs are as before.
  On a TLS error the HTTP client and the discovery manager are as before
  too; on an error of the discovery manager the HTTP client is the one
  built from the new configuration. *)
Theorem ApplyConfig_error_state (s : ServerGroup) (cfg : option Config) s' err :
  ApplyConfig s cfg = Ret (s', Some err) ->
  Cfg s' = cfg
  /\ loaded s' = loaded s /\ Ready s' = Ready s /\ state s' = state s
  /\ OriginalURLs s' = OriginalURLs s
  /\ exists c,
       cfg = Some c
       /\ ((exists e,
              NewTLSConfig
                (HTTPClientConfig_TLSConfig (HTTPConfig_HTTPConfig (Config_HTTPConfig c)))
                = inr e
              /\ err = errors_Wrap e "error loading TLS client config"
              /\ Client s' = Client s /\ targetManager s' = targetManager s)
           \/ (exists tls,
                NewTLSConfig
                  (HTTPClientConfig_TLSConfig (HTTPConfig_HTTPConfig (Config_HTTPConfig c)))
                  = inl tls
                /\ Client s' = Some {| Client_Transport := newRoundTripper c tls |}
                /\ Manager_ApplyConfig (targetManager s) {[ "foo" := Hosts c ]}
                   = (targetManager s', Some err))).
Proof.
  intros Hrun.
  apply ApplyConfig_Ret in Hrun
    as (c & -> & Hcfg & Hloaded & Hready & Hstate & Hurls & Hrest).
  repeat (split; [done|]). exists c. split; [done|].
  destruct (NewTLSConfig _) as [tls|e].
  - right. exists tls. by destruct Hrest.
  - left. exists e. destruct Hrest as ([= ->] & ? & ?). done.
Qed.

(** *** Readiness *)

Lemma syncIteration_Panic_fresh (s : ServerGroup) targetGroupMap p :
  (loaded s = false -> Ready s = ChanOpen) ->
  syncIteration s targetGroupMap = Panic p -> p <> PanicCloseOfClosedChannel.
Proof.
  intros Hready. unfold syncIteration.
  destruct (buildState s targetGroupMap) as [newState|p'] eqn:Hbuild; simpl.
  - destruct (publish_total s newState Hready) as (s' & evs & ->). done.
  - intros [= ->]. by apply buildState_Panic in Hbuild.
Qed.

(** Once [loaded] is set, no iteration closes [Ready]. *)
Lemma execution_loaded (steps : list Step) :
  forall (s : ServerGroup) tr r,
  loaded s = true ->
  execution s steps = (tr, r) ->
  Forall (fun evs => closesReady evs = false) tr
  /\ closeCount tr = 0%nat
  /\ r <> Panic PanicCloseOfClosedChannel.
Proof.
  induction steps as [|step steps IH]; intros s tr r Hloaded; simpl.
  - intros [= <- <-]. by repeat split.
  - destruct step as [targetGroupMap|cfg].
    + destruct (syncIteration s targetGroupMap) as [[s' evs]|p] eqn:Hrun.
      * destruct (execution s' steps) as [tr' r'] eqn:Hrest. intros [= <- <-].
        apply syncIteration_Ret in Hrun as (newState & _ & Hpublish).
        apply publish_Ret in Hpublish as (_ & Hloaded' & _ & _ & _ & Hevs).
        rewrite Hloaded in Hevs. destruct Hevs as [-> _].
        destruct (IH s' tr' r' Hloaded' Hrest) as (Hall & Hcount & Hr).
        repeat split; [by constructor | done | done].
      * intros [= <- <-]. repeat split; [done..|].
        intros [= ->]. apply syncIteration_Panic_fresh in Hrun; [done|].
        by rewrite Hloaded.
    + destruct (ApplyConfig s cfg) as [[s' err]|p] eqn:Hrun.
      * destruct (execution s' steps) as [tr' r'] eqn:Hrest. intros [= <- <-].
        apply ApplyConfig_Ret in Hrun as (c & _ & _ & Hloaded' & _).
        rewrite Hloaded in Hloaded'.
        destruct (IH s' tr' r' Hloaded' Hrest) as (Hall & Hcount & Hr).
        repeat split; [by constructor | done | done].
      * intros [= <- <-]. repeat split; [done..|].
        intros [= ->]. by apply ApplyConfig_Panic in Hrun.
Qed.

(** Until [loaded] is set, [Ready] is open, and it is closed by the first
  iteration that stores. *)
Lemma execution_fresh (steps : list Step) :
  forall (s : ServerGroup) tr r,
  loaded s = false -> Ready s = ChanOpen ->
  execution s steps = (tr, r) ->
  (forall i evs,
     tr !! i = Some evs ->
     closesReady evs
     = storesSnapshot evs
       && forallb (fun evs' => negb (storesSnapshot evs')) (take i tr))
  /\ (closeCount tr <= 1)%nat
  /\ r <> Panic PanicCloseOfClosedChannel.
Proof.
  induction steps as [|step steps IH]; intros s tr r Hloaded Hready; simpl.
  - intros [= <- <-]. split; [|split]; [|unfold closeCount; simpl; lia|done].
    intros i evs Hi. by destruct i.
  - destruct step as [targetGroupMap|cfg].
    + destruct (syncIteration s targetGroupMap) as [[s' evs0]|p] eqn:Hrun.
      * destruct (execution s' steps) as [tr' r'] eqn:Hrest. intros [= <- <-].
        apply syncIteration_Ret in Hrun as (newState & _ & Hpublish).
        apply publish_Ret in Hpublish as (_ & Hloaded' & _ & _ & _ & Hevs).
        rewrite Hloaded in Hevs. destruct Hevs as (-> & _ & _).
        destruct (execution_loaded steps s' tr' r' Hloaded' Hrest) as (Hall & Hcount & Hr).
        split; [|split]; [|unfold closeCount in *; simpl; lia|done].
        intros [|i] evs Hi; simpl in Hi.
        -- by injection Hi as <-.
        -- rewrite (Forall_lookup_1 _ _ _ _ Hall Hi). simpl. by rewrite andb_false_r.
      * intros [= <- <-]. split; [|split]; [|unfold closeCount; simpl; lia|].
        -- intros i evs Hi. by destruct i.
        -- intros [= ->]. apply syncIteration_Panic_fresh in Hrun; [done|]. by intros _.
    + destruct (ApplyConfig s cfg) as [[s' err]|p] eqn:Hrun.
      * destruct (execution s' steps) as [tr' r'] eqn:Hrest. intros [= <- <-].
        apply ApplyConfig_Ret in Hrun as (c & _ & _ & Hloaded' & Hready' & _).
        rewrite Hloaded in Hloaded'. rewrite Hready in Hready'.
        destruct (IH s' tr' r' Hloaded' Hready' Hrest) as (Hfirst & Hcount & Hr).
        split; [|split]; [|done..].
        intros [|i] evs Hi; simpl in Hi.
        -- by injection Hi as <-.
        -- simpl. by apply Hfirst.
      * intros [= <- <-]. split; [|split]; [|unfold closeCount; simpl; lia|].
        -- intros i evs Hi. by destruct i.
        -- intros [= ->]. by apply ApplyConfig_Panic in Hrun.
Qed.

(** [Sync] alone is the execution without reloads. *)
Lemma Sync_execution (s : ServerGroup)
    (syncCh : list (list (string * list targetgroup.Group))) :
  Sync s syncCh = execution s (map Received syncCh).
Proof.
  revert s. induction syncCh as [|targetGroupMap syncCh IH]; intros s; simpl; [done|].
  destruct (syncIteration s targetGroupMap) as [[s' evs]|p]; [|done].
  by rewrite IH.
Qed.

(** As long as no iteration has stored, there is no snapshot. *)
Lemma execution_no_store (steps : list Step) :
  forall (s s' : ServerGroup) tr,
  state s = None ->
  execution s steps = (tr, Ret s') ->
  forallb (fun evs => negb (storesSnapshot evs)) tr = true ->
  state s' = None.
Proof.
  induction steps as [|step steps IH]; intros s s' tr Hstate; simpl.
  - by intros [= <- <-].
  - destruct step as [targetGroupMap|cfg].
    + destruct (syncIteration s targetGroupMap) as [[s1 evs]|p] eqn:Hrun; [|done].
      destruct (execution s1 steps) as [tr' r'] eqn:Hrest. intros [= <- ->].
      apply syncIteration_Ret in Hrun as (newState & _ & Hpublish).
      apply publish_Ret in Hpublish as (_ & _ & _ & _ & _ & Hevs).
      destruct (loaded s); [destruct Hevs as [-> _]|destruct Hevs as (-> & _)]; done.
    + destruct (ApplyConfig s cfg) as [[s1 err]|p] eqn:Hrun; [|done].
      destruct (execution s1 steps) as [tr' r'] eqn:Hrest. intros [= <- ->].
      apply ApplyConfig_Ret in Hrun as (c & _ & _ & _ & _ & Hstate' & _).
      rewrite Hstate in Hstate'. simpl. by apply (IH s1 s' tr').
Qed.

(** *** Before the first snapshot *)

(** C3, as amended: in an execution from a new server group in which no
  iteration has stored a snapshot yet, and generally as long as nothing was
  stored, [State] returns nil (the not-ready indicator) and each of the
  five query operations dereferences it: the call panics with a nil-pointer
  dereference and returns nothing, no error either, to its caller. *)
Theorem query_before_first_snapshot_panics :
  (forall steps tr (s : ServerGroup),
     execution New steps = (tr, Ret s) ->
     forallb (fun evs => negb (storesSnapshot evs)) tr = true ->
     state s = None)
  /\ (forall s : ServerGroup,
        state s = None ->
        State s = None
        /\ (forall start end_ matchers,
              GetValue s start end_ matchers = Panic PanicNilDereference)
        /\ (forall query ts, Query s query ts = Panic PanicNilDereference)
        /\ (forall query r, QueryRange s query r = Panic PanicNilDereference)
        /\ (forall label, LabelValues s label = Panic PanicNilDereference)
        /\ (forall matches startTime endTime,
              Series s matches startTime endTime = Panic PanicNilDereference)).
Proof.
  split.
  - intros steps tr s Hrun Hnone. by apply (execution_no_store steps New s tr).
  - intros s Hstate.
    assert (State s = None) as Hnil by (unfold State; by rewrite Hstate).
    unfold GetValue, Query, QueryRange, LabelValues, Series. rewrite Hnil. done.
Qed.

(** C7: in every execution that starts from a new server group, whatever
  the updates received and the configurations applied in between, the
  iteration that closes [Ready] is the first iteration that stores a
  snapshot: an iteration closes the channel exactly when it stores and no
  earlier iteration stored; the channel is closed at most once and [Sync]
  never attempts to close it a second time. *)
Theorem Ready_closed_once_at_first_snapshot (steps : list Step) tr r :
  execution New steps = (tr, r) ->
  (forall i evs,
     tr !! i = Some evs ->
     closesReady evs
     = storesSnapshot evs
       && forallb (fun evs' => negb (storesSnapshot evs')) (take i tr))
  /\ (closeCount tr <= 1)%nat
  /\ r <> Panic PanicCloseOfClosedChannel.
Proof. by apply execution_fresh. Qed.

End WithWorld.

(** *** On the concrete world *)

Lemma Sync_publishes_surviving_targets_witness :
  exists s' evs,
    syncIteration (E := world.servergroup_ext)
      (world.configured ["drop"]) (world.update world.replicas) = Ret (s', evs)
    /\ exists cfg newState,
         Cfg (world.configured ["drop"]) = Some cfg /\ state s' = Some newState
         /\ In (EvStore newState) evs
         /\ Targets newState
            = map resolvedAddress
                  (survivingTargets (E := world.servergroup_ext) cfg
                     (world.update world.replicas))
         /\ length (leafClients (ServerGroupState_apiClient newState))
            = length (survivingTargets (E := world.servergroup_ext) cfg
                        (world.update world.replicas)).
Proof.
  destruct (Sync_publishes_surviving_targets (E := world.servergroup_ext)
              (world.configured ["drop"]) (world.update world.replicas))
    as [Hpublished Hcompletes].
  destruct (Hcompletes (world.config "" ["drop"])
              {| Client_Transport :=
                   newRoundTripper (T := world.types) (world.config "" ["drop"]) "" |})
    as (s' & evs & Hrun).
  - reflexivity.
  - reflexivity.
  - reflexivity.
  - repeat constructor; eexists _, _; split; reflexivity.
  - exists s', evs. split; [exact Hrun | exact (Hpublished s' evs Hrun)].
Defined.

(** The claim of C1 as it is worded fails: two surviving targets with the
  same resolved address give two entries of the published target list. *)
Lemma Sync_targets_not_deduplicated :
  (fun r => Targets <$> state r.1)
    <$> syncIteration (E := world.servergroup_ext)
          (world.configured ["drop"]) (world.update world.replicas)
  = Ret (Some ["a:9090"; "a:9090"])
  /\ deduplicatedTargets (E := world.servergroup_ext) (world.config "" ["drop"])
       (world.update world.replicas)
     = ["a:9090"].
Proof. split; reflexivity. Qed.

Lemma Sync_strips_reserved_labels_witness :
  exists s' evs,
    syncIteration (E := world.servergroup_ext)
      (world.configured ["drop"]) (world.update world.replicas) = Ret (s', evs)
    /\ exists cfg newState,
         Cfg (world.configured ["drop"]) = Some cfg /\ state s' = Some newState
         /\ Forall2
              (fun target client =>
                 exists api,
                   client = AddLabelClient api
                              (model.Merge (removePrivateLabels target) (Labels cfg))
                   /\ forall name,
                        String.prefix model.ReservedLabelPrefix name = true ->
                        removePrivateLabels target !! name = None
                        /\ model.Merge (removePrivateLabels target) (Labels cfg) !! name
                           = Labels cfg !! name)
              (survivingTargets (E := world.servergroup_ext) cfg
                 (world.update world.replicas))
              (leafClients (ServerGroupState_apiClient newState)).
Proof.
  eexists _, _. split; [reflexivity|].
  eapply (Sync_strips_reserved_labels (E := world.servergroup_ext)
            (world.configured ["drop"]) (world.update world.replicas)).
  reflexivity.
Defined.



Lemma ApplyConfig_error_state_witness :
  exists s' err,
    ApplyConfig (E := world.servergroup_ext)
      (world.configured []) (Some (world.config "/missing" [])) = Ret (s', Some err)
    /\ Cfg s' = Some (world.config "/missing" [])
    /\ state s' = state (world.configured [])
    /\ Ready s' = Ready (world.configured []).
Proof.
  eexists _, _. split; [reflexivity|].
  destruct (ApplyConfig_error_state (E := world.servergroup_ext)
              (world.configured []) (Some (world.config "/missing" [])) _ _ eq_refl)
    as (Hcfg & _ & Hready & Hstate & _).
  split; [exact Hcfg|]. split; [exact Hstate | exact Hready].
Defined.

(** The claim of C2 as it is worded fails: the CA file of the new
  configuration does not load, [ApplyConfig] returns the TLS error, and the
  manager's configuration is the new one. *)
Lemma ApplyConfig_error_replaces_config :
  ApplyConfig (E := world.servergroup_ext)
    (world.configured []) (Some (world.config "/missing" []))
  = Ret (withCfg (world.configured []) (Some (world.config "/missing" [])),
         Some (errors_Wrap (ForeignError "unable to use specified CA cert")
                           "error loading TLS client config"))
  /\ Cfg (withCfg (world.configured []) (Some (world.config "/missing" [])))
     <> Cfg (world.configured []).
Proof.
  split; [reflexivity|]. intros Hsame. discriminate Hsame.
Qed.

Lemma query_before_first_snapshot_panics_witness :
  let run :=
    execution (E := world.servergroup_ext) (New (E := world.servergroup_ext))
      [ Reload (Some (world.config "" [])) ] in
  run = ([[]], Ret (world.configured []))
  /\ State (world.configured []) = None
  /\ GetValue (E := world.servergroup_ext) (world.configured []) 0 60 ["up"]
     = Panic PanicNilDereference
  /\ Series (E := world.servergroup_ext) (world.configured []) ["{up}"] 0 60
     = Panic PanicNilDereference.
Proof.
  intros run.
  destruct (query_before_first_snapshot_panics (E := world.servergroup_ext))
    as [Hnone Hpanic].
  assert (run = ([[]], Ret (world.configured []))) as Hrun by reflexivity.
  split; [exact Hrun|].
  destruct (Hpanic (world.configured [])
              (Hnone [ Reload (Some (world.config "" [])) ] [[]] (world.configured [])
                     Hrun eq_refl))
    as (Hnil & Hget & _ & _ & _ & Hseries).
  split; [exact Hnil|]. split; [apply Hget | apply Hseries].
Defined.

(** The claim of C3 as it is worded fails: on a configured server group
  that has not yet published a snapshot, [GetValue] returns no error: it
  does not return. *)
Lemma query_before_first_snapshot_no_error :
  GetValue (E := world.servergroup_ext) (world.configured []) 0 60 ["up"]
  = Panic PanicNilDereference
  /\ ~ (exists value err,
          GetValue (E := world.servergroup_ext) (world.configured []) 0 60 ["up"]
          = Ret (value, Some err)).
Proof.
  split; [reflexivity|]. intros (value & err & Hret). discriminate Hret.
Qed.

Lemma Ready_closed_once_at_first_snapshot_witness :
  let run :=
    execution (E := world.servergroup_ext) (New (E := world.servergroup_ext))
      [ Reload (Some (world.config "" ["drop"]));
        Received (world.update world.replicas);
        Reload (Some (world.config "" []));
        Received (world.update world.replicas) ] in
  map storesSnapshot run.1 = [false; true; false; true]
  /\ map closesReady run.1 = [false; true; false; false]
  /\ (closeCount run.1 <= 1)%nat
  /\ run.2 <> Panic PanicCloseOfClosedChannel.
Proof.
  intros run.
  destruct (Ready_closed_once_at_first_snapshot (E := world.servergroup_ext)
              [ Reload (Some (world.config "" ["drop"]));
                Received (world.update world.replicas);
                Reload (Some (world.config "" []));
                Received (world.update world.replicas) ] run.1 run.2)
    as (_ & Hcount & Hr).
  - subst run. apply surjective_pairing.
  - split; [vm_compute; reflexivity|]. split; [vm_compute; reflexivity|].
    split; [exact Hcount | exact Hr].
Defined.

End ServerGroupSpec.

Module ProxyQuerierSpec.
Import proxyquerier.

Section WithWorld.
Context `{E : Ext} {C : Type} `{A : !promclient_API C}.

Lemma Select_metadata (h : ProxyQuerier) (matchers : list Matcher) matcherString :
  MatcherToString matchers = (matcherString, None) ->
  calls (Select h None matchers) = [CallSeries [matcherString] (Start h) (End_ h)]
  /\ result (Select h None matchers)
     = match API_Series (Client h) [matcherString] (Start h) (End_ h) with
       | (_, Some err) => (None, [], Some (errors_Cause err))
       | (labelsets, None) =>
           seriesSetOf (Some (model.Vector (map zeroPoint labelsets))) None
       end.
Proof.
  intros Hstring. unfold Select. rewrite Hstring. simpl.
  destruct (API_Series (Client h) [matcherString] (Start h) (End_ h)) as [labelsets [err|]];
    simpl; done.
Qed.

(** C5: a selection request without select parameters is answered by the
  matcher-string conversion and one [Series] call, and when both succeed
  the series set is built from the vector that holds one zero-point sample
  per returned label set, in order, so it has one series per label set as
  soon as the iterator conversion yields one iterator per sample of a
  vector; an error of the conversion is returned before any call, an error
  of [Series] is returned by its cause.  A request with select parameters
  issues one [GetValue] call with the request's start and end timestamps
  and the matchers, and returns the series of its value. *)
Theorem Select_modes (h : ProxyQuerier) (matchers : list Matcher) :
  (forall matcherString err,
     MatcherToString matchers = (matcherString, Some err) ->
     Select h None matchers = traced [] (None, [], Some err))
  /\ (forall matcherString labelsets err,
        MatcherToString matchers = (matcherString, None) ->
        API_Series (Client h) [matcherString] (Start h) (End_ h) = (labelsets, Some err) ->
        Select h None matchers
        = traced [CallSeries [matcherString] (Start h) (End_ h)]
                 (None, [], Some (errors_Cause err)))
  /\
  (forall matcherString labelsets,
     MatcherToString matchers = (matcherString, None) ->
     API_Series (Client h) [matcherString] (Start h) (End_ h) = (labelsets, None) ->
     calls (Select h None matchers) = [CallSeries [matcherString] (Start h) (End_ h)]
     /\ result (Select h None matchers)
        = (Some (NewSeriesSet
                   (map Build_Series_
                        (IteratorsForValue
                           (Some (model.Vector (map zeroPoint labelsets)))))),
           [], None)
     /\ ((forall samples,
            length (IteratorsForValue (Some (model.Vector samples))) = length samples) ->
         exists series,
           result (Select h None matchers) = (Some (NewSeriesSet series), [], None)
           /\ length series = length labelsets))
  /\ (forall selectParams,
        let start := timestamp_Time (SelectParams_Start selectParams) in
        let end_ := timestamp_Time (SelectParams_End selectParams) in
        calls (Select h (Some selectParams) matchers) = [CallGetValue start end_ matchers]
        /\ result (Select h (Some selectParams) matchers)
           = match API_GetValue (Client h) start end_ matchers with
             | (_, Some err) => (None, [], Some (errors_Cause err))
             | (value, None) =>
                 (Some (NewSeriesSet (map Build_Series_ (IteratorsForValue value))),
                  [], None)
             end).
Proof.
  split; [|split; [|split]].
  - intros matcherString err Hstring. unfold Select. by rewrite Hstring.
  - intros matcherString labelsets err Hstring Hseries.
    unfold Select, Client_Series. rewrite Hstring. simpl. by rewrite Hseries.
  - intros matcherString labelsets Hstring Hseries.
    destruct (Select_metadata h matchers matcherString Hstring) as [Hcalls Hresult].
    rewrite Hseries in Hresult. unfold seriesSetOf in Hresult.
    split; [done|]. split; [done|].
    intros Hiterators. eexists. split; [exact Hresult|].
    by rewrite length_map, Hiterators, length_map.
  - intros selectParams. simpl. unfold Select, Client_GetValue.
    destruct (API_GetValue _ _ _ _) as [value [err|]]; simpl; done.
Qed.


(** C8: [LabelNames] returns the error "Not implemented yet" and no names,
  whatever the querier: its error is never nil. *)
Theorem LabelNames_unimplemented (h : ProxyQuerier (C := C)) :
  LabelNames h = ([], Some (errors_New "Not implemented yet"))
  /\ (LabelNames h).2 <> None.
Proof. split; [reflexivity | discriminate]. Qed.

(** C9: any number of consecutive calls of [Close] returns nil every time
  and leaves the querier, its client included, as it was. *)
Theorem Close_idempotent (h : ProxyQuerier (C := C)) (n : nat) :
  CloseTimes n h = (h, replicate n None)
  /\ Client (CloseTimes n h).1 = Client h
  /\ Close h = (h, None).
Proof.
  assert (CloseTimes n h = (h, replicate n None)) as Hn.
  { induction n as [|n IH]; simpl; [done|]. by rewrite IH. }
  rewrite Hn. done.
Qed.

End WithWorld.

(** *** On the concrete world *)

Lemma Select_modes_witness :
  let h := world.querier [world.target "a:9090" "x"; world.target "b:9090" "y"] in
  let selectParams :=
    {| SelectParams_Start := 5000; SelectParams_End := 6000; Step := 0; Func := "" |} in
  calls (Select (E := world.proxyquerier_ext) (A := world.backend) h None ["up"])
  = [CallSeries (T := world.types) ["{up}"] 1000 2000]
  /\ (exists series,
        result (Select (E := world.proxyquerier_ext) (A := world.backend) h None ["up"])
        = (Some (NewSeriesSet series), [], None)
        /\ length series = 2%nat)
  /\ calls (Select (E := world.proxyquerier_ext) (A := world.backend)
              h (Some selectParams) ["up"])
     = [CallGetValue (T := world.types) 5000 6000 ["up"]].
Proof.
  intros h selectParams.
  destruct (Select_modes (E := world.proxyquerier_ext) (A := world.backend) h ["up"])
    as (_ & _ & Hmetadata & Hdata).
  destruct (Hmetadata "{up}" [world.target "a:9090" "x"; world.target "b:9090" "y"]
              eq_refl eq_refl) as (Hcalls & _ & Hseries).
  split; [exact Hcalls|]. split.
  - apply Hseries. intros samples. apply length_map.
  - exact (proj1 (Hdata selectParams)).
Defined.


End ProxyQuerierSpec.

(** * Further properties of the server group *)
Module ServerGroupMore.
Import servergroup ServerGroupSpec.

Section WithWorld.
Context `{E : Ext}.

#[local] Arguments syncTarget : simpl never.

(** ** The transport *)

(** X1: The round tripper of a configuration: under the wrappers there is the
  transport with the fixed pool settings, the TLS configuration built from
  the configuration, its proxy and its dial timeout; a bearer token takes
  the place of a bearer-token file when both are set, and basic
  authentication, when configured, is the outermost wrapper. *)
Theorem newRoundTripper_layers (cfg : Config) (tls : tlsConfig) :
  let http := HTTPConfig_HTTPConfig (Config_HTTPConfig cfg) in
  baseTransport (newRoundTripper cfg tls)
  = {| Proxy := ProxyURL http;
       MaxIdleConns := 20000;
       MaxIdleConnsPerHost := 1000;
       DisableKeepAlives := false;
       TLSClientConfig := tls;
       DisableCompression := true;
       IdleConnTimeout := 300000000000;
       DialContext := DialTimeout (Config_HTTPConfig cfg) |}
  /\ authLayers (newRoundTripper cfg tls)
     = match HTTPClientConfig_BasicAuth http with
       | Some _ => [AuthBasic]
       | None => []
       end
       ++ (if String.eqb (BearerToken http) "" then
             if String.eqb (BearerTokenFile http) "" then [] else [AuthBearerTokenFile]
           else [AuthBearerToken]).
Proof.
  intros http. unfold newRoundTripper. fold http.
  assert (forall str : string,
            (0 <? String.length str)%nat = negb (String.eqb str "")) as Hlen
    by (by intros [|a str]).
  rewrite !Hlen.
  destruct (HTTPClientConfig_BasicAuth http) as [auth|];
    destruct (String.eqb (BearerToken http) "");
    destruct (String.eqb (BearerTokenFile http) ""); simpl; done.
Qed.

(** ** [ApplyConfig] *)

(** A call of [ApplyConfig] whose TLS configuration loads and whose
  discovery configuration the manager accepts returns nil; the server group
  then holds the new configuration, an HTTP client with the round tripper
  of that configuration, and the manager it got by applying the single job
  ["foo"] with the hosts of the configuration. *)
Theorem ApplyConfig_success (s : ServerGroup) (c : Config) tls m :
  NewTLSConfig (HTTPClientConfig_TLSConfig (HTTPConfig_HTTPConfig (Config_HTTPConfig c)))
    = inl tls ->
  Manager_ApplyConfig (targetManager s) {[ "foo" := Hosts c ]} = (m, None) ->
  ApplyConfig s (Some c)
  = Ret ({| loaded := loaded s;
            Ready := Ready s;
            Cfg := Some c;
            Client := Some {| Client_Transport := newRoundTripper c tls |};
            targetManager := m;
            OriginalURLs := OriginalURLs s;
            state := state s |}, None).
Proof.
  intros Htls Happly. unfold ApplyConfig. simpl. rewrite Htls. simpl.
  by rewrite Happly.
Qed.

(** X2: Whatever [ApplyConfig] returns, the snapshot is the one from before the
  call: [State] and the answers of the five query operations are
  unchanged until the next discovery round. *)
Theorem ApplyConfig_keeps_snapshot (s : ServerGroup) (cfg : option Config) s' err :
  ApplyConfig s cfg = Ret (s', err) ->
  State s' = State s
  /\ (forall start end_ matchers,
        GetValue s' start end_ matchers = GetValue s start end_ matchers)
  /\ (forall query ts, Query s' query ts = Query s query ts)
  /\ (forall query r, QueryRange s' query r = QueryRange s query r)
  /\ (forall label, LabelValues s' label = LabelValues s label)
  /\ (forall matches startTime endTime,
        Series s' matches startTime endTime = Series s matches startTime endTime).
Proof.
  intros Hrun. apply ApplyConfig_Ret in Hrun as (c & _ & _ & _ & _ & Hstate & _).
  assert (State s' = State s) as Hsame by (unfold State; by rewrite Hstate).
  unfold GetValue, Query, QueryRange, LabelValues, Series. by rewrite Hsame.
Qed.

(** ** Label sets *)

(** X4: The deletion of lines 142-146 only deletes: what is left is a part of
  the label set, deleting again changes nothing, and a label set without
  reserved names is left as it is. *)
Theorem removePrivateLabels_only_deletes (target : gmap string string) :
  removePrivateLabels target ⊆ target
  /\ removePrivateLabels (removePrivateLabels target) = removePrivateLabels target
  /\ ((forall name, is_Some (target !! name) ->
                   String.prefix model.ReservedLabelPrefix name = false) ->
      removePrivateLabels target = target).
Proof.
  split; [|split].
  - apply map_subseteq_spec. intros name value.
    rewrite removePrivateLabels_lookup. by destruct (String.prefix _ name).
  - apply map_eq. intros name. rewrite !removePrivateLabels_lookup.
    by destruct (String.prefix _ name).
  - intros Hnone. apply map_eq. intros name. rewrite removePrivateLabels_lookup.
    destruct (String.prefix _ name) eqn:Hp; [|done].
    destruct (target !! name) as [value|] eqn:Hl; [|done].
    rewrite Hnone in Hp; [done|]. by rewrite Hl.
Qed.

(** X5: The label set attached to a target: a static label of the
  configuration wins over the target's label of the same name; any other
  label of the target is kept unless its name is reserved. *)
Theorem outputLabels_lookup (cfg : Config) (target : gmap string string) (name : string) :
  outputLabels cfg target !! name
  = match Labels cfg !! name with
    | Some value => Some value
    | None => if String.prefix model.ReservedLabelPrefix name then None
              else target !! name
    end.
Proof.
  unfold outputLabels, model.Merge. rewrite lookup_union, removePrivateLabels_lookup.
  destruct (Labels cfg !! name) as [value|]; simpl.
  - by destruct (if String.prefix _ name then None else target !! name).
  - by destruct (if String.prefix _ name then None else target !! name).
Qed.

(** ** The clients of a round *)

Lemma newAPIClient_Ret (cfg : Config) (u : url.URL) (client : apiClient) api :
  newAPIClient cfg u client = Ret api ->
  if RemoteRead cfg
  then exists remoteStorageClient,
         remote_NewClient 1 (remoteReadConfig u) = inl remoteStorageClient
         /\ api = PromAPIRemoteRead (v1_NewAPI client) remoteStorageClient
  else api = PromAPIV1 (v1_NewAPI client).
Proof.
  unfold newAPIClient, remoteReadConfig. destruct (RemoteRead cfg).
  - destruct (remote_NewClient _ _) as [remoteStorageClient|err]; [|done].
    intros [= <-]. by exists remoteStorageClient.
  - by intros [= <-].
Qed.

Lemma syncTarget_leaf (s : ServerGroup) cfg httpClient targets apiClients target target' acc' :
  Cfg s = Some cfg -> Client s = Some httpClient ->
  relabel_Process target (RelabelConfigs cfg) = Some target' ->
  syncTarget s (targets, apiClients) target = Ret acc' ->
  exists leaf,
    leafFor cfg httpClient target' leaf
    /\ acc' = (targets ++ [resolvedAddress target'], apiClients ++ [leaf]).
Proof.
  intros Hcfg Hclient Hrelabel. unfold syncTarget. rewrite Hcfg, Hclient. simpl.
  rewrite Hrelabel.
  destruct (api_NewClient _ _) as [client|err] eqn:Hnew; [|done].
  destruct (newAPIClient cfg (targetURL cfg target') client) as [api|p] eqn:Hapi;
    simpl; [|done].
  intros [= <-]. eexists. split; [|reflexivity].
  exists client. split; [done|].
  apply newAPIClient_Ret in Hapi. destruct (RemoteRead cfg).
  - destruct Hapi as (remoteStorageClient & Hremote & ->). by exists remoteStorageClient.
  - by subst api.
Qed.

Lemma forRange_syncTarget_leaves (s : ServerGroup) cfg httpClient ts :
  Cfg s = Some cfg -> Client s = Some httpClient ->
  forall targets apiClients targets' apiClients',
  forRange (syncTarget s) (targets, apiClients) ts = Ret (targets', apiClients') ->
  exists leaves,
    apiClients' = apiClients ++ leaves
    /\ Forall2 (leafFor cfg httpClient) (relabelAll cfg ts) leaves.
Proof.
  intros Hcfg Hclient. unfold relabelAll.
  induction ts as [|t ts IH]; intros targets apiClients targets' apiClients'.
  - simpl. intros [= <- <-]. exists []. split; [by rewrite app_nil_r|constructor].
  - simpl. destruct (syncTarget s (targets, apiClients) t) as [acc'|p] eqn:Hbody;
      simpl; [|done].
    destruct (relabel_Process t (RelabelConfigs cfg)) as [t'|] eqn:Hrelabel.
    + destruct (syncTarget_leaf s cfg httpClient _ _ t t' acc' Hcfg Hclient Hrelabel Hbody)
        as (leaf & Hleaf & ->).
      intros Hrest. apply IH in Hrest as (leaves & -> & Hall).
      exists (leaf :: leaves). split; [by rewrite <- app_assoc|by constructor].
    + pose proof (syncTarget_Ret s cfg _ _ t acc' Hcfg Hbody) as Hacc.
      rewrite Hrelabel in Hacc. subst acc'. apply IH.
Qed.

(** Targets that relabeling drops leave [targets] and [apiClients] alone,
  with or without an HTTP client. *)
Lemma forRange_syncTarget_dropped (s : ServerGroup) cfg ts acc :
  Cfg s = Some cfg ->
  relabelAll cfg ts = [] ->
  forRange (syncTarget s) acc ts = Ret acc.
Proof.
  intros Hcfg. unfold relabelAll. induction ts as [|t ts IH]; simpl; [done|]. csimpl.
  destruct (relabel_Process t (RelabelConfigs cfg)) as [t'|] eqn:Hrelabel; [done|].
  intros Hnone. destruct acc as [targets apiClients].
  assert (syncTarget s (targets, apiClients) t = Ret (targets, apiClients)) as ->.
  { unfold syncTarget. rewrite Hcfg. simpl. by rewrite Hrelabel. }
  simpl. by apply IH.
Qed.

(** The loop body reads the configuration and the HTTP client of the server
  group and nothing else of it. *)
Lemma syncTarget_reads (s1 s2 : ServerGroup) acc target :
  Cfg s1 = Cfg s2 -> Client s1 = Client s2 ->
  syncTarget s1 acc target = syncTarget s2 acc target.
Proof. intros Hcfg Hclient. unfold syncTarget. by rewrite Hcfg, Hclient. Qed.

Lemma buildState_reads (s1 s2 : ServerGroup) targetGroupMap :
  Cfg s1 = Cfg s2 -> Client s1 = Client s2 ->
  buildState s1 targetGroupMap = buildState s2 targetGroupMap.
Proof.
  intros Hcfg Hclient. unfold buildState. rewrite !loops_flatten, Hcfg.
  by rewrite (forRange_ext (syncTarget s1) (syncTarget s2))
    by (intros; by apply syncTarget_reads).
Qed.

Lemma buildState_shape (s : ServerGroup) cfg targetGroupMap newState :
  Cfg s = Some cfg ->
  buildState s targetGroupMap = Ret newState ->
  ServerGroupState_apiClient newState
  = composedClient cfg (leafClients (ServerGroupState_apiClient newState))
                   (Targets newState).
Proof.
  intros Hcfg. unfold buildState, composedClient. rewrite Hcfg.
  destruct (forRange _ _ _) as [[targets apiClients]|p]; simpl; [|done].
  intros [= <-]. by destruct (IgnoreError cfg).
Qed.

Lemma buildState_leaves (s : ServerGroup) cfg httpClient targetGroupMap newState :
  Cfg s = Some cfg -> Client s = Some httpClient ->
  buildState s targetGroupMap = Ret newState ->
  Forall2 (leafFor cfg httpClient) (survivingTargets cfg targetGroupMap)
          (leafClients (ServerGroupState_apiClient newState)).
Proof.
  intros Hcfg Hclient. unfold buildState. rewrite loops_flatten, Hcfg.
  destruct (forRange _ _ _) as [[targets apiClients]|p] eqn:Hloop; simpl; [|done].
  destruct (forRange_syncTarget_leaves s cfg httpClient _ Hcfg Hclient _ _ _ _ Hloop)
    as (leaves & -> & Hall).
  intros [= <-]. by destruct (IgnoreError cfg).
Qed.

(** ** One round *)

(** X6: The client of every surviving target in a published snapshot is built
  from [api.NewClient] on the URL scheme://address/prefix of the target
  with the transport of the server group's HTTP client; with remote read it
  is the remote-read client on the path joined with api/v1/read and a
  timeout of two minutes, otherwise the plain client; both carry the
  attached label set. *)
Theorem Sync_leaf_clients (s : ServerGroup) cfg httpClient
    (targetGroupMap : list (string * list targetgroup.Group)) s' evs :
  Cfg s = Some cfg -> Client s = Some httpClient ->
  syncIteration s targetGroupMap = Ret (s', evs) ->
  exists newState,
    state s' = Some newState
    /\ Forall2
         (fun target leaf =>
            exists client,
              api_NewClient
                (url_String {| url.Scheme := GetScheme cfg;
                               url.Host := resolvedAddress target;
                               url.Path := PathPrefix cfg |})
                (Client_Transport httpClient) = inl client
              /\ if RemoteRead cfg
                 then exists remoteStorageClient,
                        remote_NewClient 1
                          {| ClientConfig_URL :=
                               {| url.Scheme := GetScheme cfg;
                                  url.Host := resolvedAddress target;
                                  url.Path := path_Join (PathPrefix cfg) "api/v1/read" |};
                             ClientConfig_Timeout := 120000000000 |}
                        = inl remoteStorageClient
                        /\ leaf = AddLabelClient
                                    (PromAPIRemoteRead (v1_NewAPI client)
                                                       remoteStorageClient)
                                    (outputLabels cfg target)
                 else leaf = AddLabelClient (PromAPIV1 (v1_NewAPI client))
                                            (outputLabels cfg target))
         (survivingTargets cfg targetGroupMap)
         (leafClients (ServerGroupState_apiClient newState)).
Proof.
  intros Hcfg Hclient Hrun.
  apply syncIteration_Ret in Hrun as (newState & Hbuild & Hpublish).
  apply publish_Ret in Hpublish as (Hstate & _).
  exists newState. split; [done|].
  exact (buildState_leaves s cfg httpClient targetGroupMap newState Hcfg Hclient Hbuild).
Qed.

(** X7: The composed client of a published snapshot is the merge layer over the
  per-target clients, with the anti-affinity of the configuration, a
  required count of one and a metric callback over the snapshot's own
  target list, which has one address per client; it is wrapped in the
  error-ignoring client exactly when the configuration asks for it. *)
Theorem Sync_composed_client (s : ServerGroup)
    (targetGroupMap : list (string * list targetgroup.Group)) s' evs :
  syncIteration s targetGroupMap = Ret (s', evs) ->
  exists cfg newState leaves,
    Cfg s = Some cfg /\ state s' = Some newState
    /\ length leaves = length (Targets newState)
    /\ ServerGroupState_apiClient newState
       = if IgnoreError cfg
         then IgnoreErrorAPI (NewMultiAPI leaves (GetAntiAffinity cfg) (Targets newState) 1)
         else NewMultiAPI leaves (GetAntiAffinity cfg) (Targets newState) 1.
Proof.
  intros Hrun.
  apply syncIteration_Ret in Hrun as (newState & Hbuild & Hpublish).
  apply publish_Ret in Hpublish as (Hstate & _).
  destruct (buildState_Ret s targetGroupMap newState Hbuild)
    as (cfg & inner & Hcfg & Htargets & Hlen & Hleaves).
  exists cfg, newState, (leafClients (ServerGroupState_apiClient newState)).
  split; [done|]. split; [done|]. split.
  - rewrite Hleaves, Htargets, length_zip_with, !length_map. lia.
  - exact (buildState_shape s cfg targetGroupMap newState Hcfg Hbuild).
Qed.

(** X8: A snapshot is built from the update, the configuration and the HTTP
  client alone: two server groups that agree on these two publish the same
  snapshot for an update, whatever snapshot each held before. *)
Theorem Sync_snapshot_from_update_alone (s1 s2 : ServerGroup)
    (targetGroupMap : list (string * list targetgroup.Group)) s1' evs1 s2' evs2 :
  Cfg s1 = Cfg s2 -> Client s1 = Client s2 ->
  syncIteration s1 targetGroupMap = Ret (s1', evs1) ->
  syncIteration s2 targetGroupMap = Ret (s2', evs2) ->
  state s1' = state s2' /\ is_Some (state s1').
Proof.
  intros Hcfg Hclient Hrun1 Hrun2.
  apply syncIteration_Ret in Hrun1 as (newState1 & Hbuild1 & Hpublish1).
  apply syncIteration_Ret in Hrun2 as (newState2 & Hbuild2 & Hpublish2).
  apply publish_Ret in Hpublish1 as (Hstate1 & _).
  apply publish_Ret in Hpublish2 as (Hstate2 & _).
  rewrite (buildState_reads s1 s2 targetGroupMap Hcfg Hclient) in Hbuild1.
  rewrite Hbuild1 in Hbuild2. injection Hbuild2 as <-.
  rewrite Hstate1, Hstate2. eauto.
Qed.

(** X10: An update without a surviving target (no target at all, or every target
  dropped by relabeling) publishes a snapshot with an empty target list and
  a merge layer without clients; no HTTP client is needed for it. *)
Theorem Sync_empty_round (s : ServerGroup) cfg
    (targetGroupMap : list (string * list targetgroup.Group)) :
  Cfg s = Some cfg ->
  survivingTargets cfg targetGroupMap = [] ->
  (loaded s = false -> Ready s = ChanOpen) ->
  exists s' evs,
    syncIteration s targetGroupMap = Ret (s', evs)
    /\ state s' = Some {| Targets := [];
                          ServerGroupState_apiClient := composedClient cfg [] [] |}.
Proof.
  intros Hcfg Hnone Hready.
  assert (buildState s targetGroupMap
          = Ret {| Targets := [];
                   ServerGroupState_apiClient := composedClient cfg [] [] |}) as Hbuild.
  { unfold buildState. rewrite loops_flatten.
    rewrite (forRange_syncTarget_dropped s cfg _ _ Hcfg Hnone). simpl.
    rewrite Hcfg. simpl. unfold composedClient. by destruct (IgnoreError cfg). }
  destruct (publish_total s {| Targets := [];
                               ServerGroupState_apiClient := composedClient cfg [] [] |}
              Hready) as (s' & evs & Hpublish).
  exists s', evs. split.
  - unfold syncIteration. by rewrite Hbuild.
  - by apply publish_Ret in Hpublish as (Hstate & _).
Qed.

(** ** Rounds without a configuration or without an HTTP client *)

Lemma buildState_no_config (s : ServerGroup) targetGroupMap :
  Cfg s = None -> buildState s targetGroupMap = Panic PanicNilDereference.
Proof.
  intros Hcfg. unfold buildState. rewrite loops_flatten.
  destruct (allTargets targetGroupMap) as [|t ts]; simpl.
  - by rewrite Hcfg.
  - unfold syncTarget. by rewrite Hcfg.
Qed.

Lemma forRange_syncTarget_no_client (s : ServerGroup) cfg ts :
  Cfg s = Some cfg -> Client s = None ->
  relabelAll cfg ts <> [] ->
  forall acc, forRange (syncTarget s) acc ts = Panic PanicNilDereference.
Proof.
  intros Hcfg Hclient. unfold relabelAll.
  induction ts as [|t ts IH]; simpl; [done|]. csimpl.
  intros Hsome [targets apiClients].
  destruct (relabel_Process t (RelabelConfigs cfg)) as [t'|] eqn:Hrelabel.
  - assert (syncTarget s (targets, apiClients) t = Panic PanicNilDereference) as ->; [|done].
    unfold syncTarget. rewrite Hcfg, Hclient. simpl. by rewrite Hrelabel.
  - assert (syncTarget s (targets, apiClients) t = Ret (targets, apiClients)) as ->.
    { unfold syncTarget. rewrite Hcfg. simpl. by rewrite Hrelabel. }
    simpl. by apply IH.
Qed.

(** X11: [Sync] runs from [New] on, before any configuration is applied.  On a
  server group without a configuration every update, the empty one
  included, ends the loop with a nil-pointer dereference and stores
  nothing; with a configuration but without an HTTP client the same happens
  on every update that has a surviving target. *)
Theorem Sync_unconfigured_panics (s : ServerGroup)
    (targetGroupMap : list (string * list targetgroup.Group)) rest :
  (Cfg s = None ->
   Sync s (targetGroupMap :: rest) = ([], Panic PanicNilDereference))
  /\ (forall cfg,
        Cfg s = Some cfg -> Client s = None ->
        survivingTargets cfg targetGroupMap <> [] ->
        Sync s (targetGroupMap :: rest) = ([], Panic PanicNilDereference)).
Proof.
  split.
  - intros Hcfg. simpl. unfold syncIteration.
    by rewrite (buildState_no_config s targetGroupMap Hcfg).
  - intros cfg Hcfg Hclient Hsome. simpl. unfold syncIteration, buildState.
    rewrite loops_flatten.
    by rewrite (forRange_syncTarget_no_client s cfg _ Hcfg Hclient Hsome).
Qed.

(** ** The loop *)



(** ** Reloads and rounds *)

(** X3: After a call of [ApplyConfig] that returned, with or without an error,
  the next round relabels with the rules of the configuration of that call
  and builds its clients with the HTTP client the call left: the one of the
  new configuration if its TLS configuration loaded, the previous one
  otherwise. *)
Theorem reload_takes_effect_next_round (s : ServerGroup) (cfg : option Config) s1 err
    (targetGroupMap : list (string * list targetgroup.Group)) s2 evs :
  ApplyConfig s cfg = Ret (s1, err) ->
  syncIteration s1 targetGroupMap = Ret (s2, evs) ->
  exists c newState,
    cfg = Some c /\ state s2 = Some newState
    /\ Targets newState = map resolvedAddress (survivingTargets c targetGroupMap)
    /\ Client s1
       = match NewTLSConfig
                 (HTTPClientConfig_TLSConfig (HTTPConfig_HTTPConfig (Config_HTTPConfig c)))
         with
         | inl tls => Some {| Client_Transport := newRoundTripper c tls |}
         | inr _ => Client s
         end
    /\ (forall httpClient,
          Client s1 = Some httpClient ->
          Forall2 (leafFor c httpClient) (survivingTargets c targetGroupMap)
                  (leafClients (ServerGroupState_apiClient newState))).
Proof.
  intros Hreload Hrun.
  apply ApplyConfig_Ret in Hreload as (c & -> & Hcfg & _ & _ & _ & _ & Htls).
  apply syncIteration_Ret in Hrun as (newState & Hbuild & Hpublish).
  apply publish_Ret in Hpublish as (Hstate & _).
  destruct (buildState_Ret s1 targetGroupMap newState Hbuild)
    as (c' & inner & Hcfg' & Htargets & _).
  rewrite Hcfg in Hcfg'. injection Hcfg' as <-.
  exists c, newState. repeat split; try done.
  - revert Htls. destruct (NewTLSConfig _); intros Hleft;
      [by destruct Hleft | by destruct Hleft as (_ & ? & _)].
  - intros httpClient Hclient.
    exact (buildState_leaves s1 c httpClient targetGroupMap newState Hcfg Hclient Hbuild).
Qed.

(** ** Readiness and queries *)

Lemma execution_ready_invariant (steps : list Step) :
  forall (s s' : ServerGroup) tr,
  ready_invariant s ->
  execution s steps = (tr, Ret s') ->
  ready_invariant s'.
Proof.
  induction steps as [|step steps IH]; intros s s' tr Hinv; simpl.
  - by intros [= <- <-].
  - destruct step as [targetGroupMap|cfg].
    + destruct (syncIteration s targetGroupMap) as [[s1 evs]|p] eqn:Hrun; [|done].
      destruct (execution s1 steps) as [tr' r'] eqn:Hrest. intros [= <- ->].
      apply (IH s1 s' tr'); [|done].
      apply syncIteration_Ret in Hrun as (newState & _ & Hpublish).
      apply publish_Ret in Hpublish as (Hstate & Hloaded & _ & _ & _ & Hevs).
      right. split; [done|]. split; [|by rewrite Hstate].
      destruct Hinv as [(Hl & _ & _)|(Hl & Hr & _)]; rewrite Hl in Hevs.
      * by destruct Hevs as (_ & _ & ?).
      * destruct Hevs as (_ & ->). done.
    + destruct (ApplyConfig s cfg) as [[s1 err]|p] eqn:Hrun; [|done].
      destruct (execution s1 steps) as [tr' r'] eqn:Hrest. intros [= <- ->].
      apply (IH s1 s' tr'); [|done].
      apply ApplyConfig_Ret in Hrun as (c & _ & _ & Hloaded & Hready & Hstate & _).
      unfold ready_invariant. by rewrite Hloaded, Hready, Hstate.
Qed.

(** X13: In every execution from a new server group, [Ready] is closed exactly
  when a snapshot is in place: while it is open [State] is nil, and once it
  is closed each of the five query operations returns what the composed
  client of the current snapshot answers, without a panic. *)
Theorem Ready_closed_means_queries_answer (steps : list Step) (s : ServerGroup) tr :
  execution New steps = (tr, Ret s) ->
  (Ready s = ChanOpen /\ State s = None)
  \/ (Ready s = ChanClosed
      /\ exists snapshot,
           State s = Some snapshot
           /\ (forall start end_ matchers,
                 GetValue s start end_ matchers
                 = Ret (API_GetValue (ServerGroupState_apiClient snapshot)
                                     start end_ matchers))
           /\ (forall query ts,
                 Query s query ts
                 = Ret (API_Query (ServerGroupState_apiClient snapshot) query ts))
           /\ (forall query r,
                 QueryRange s query r
                 = Ret (API_QueryRange (ServerGroupState_apiClient snapshot) query r))
           /\ (forall label,
                 LabelValues s label
                 = Ret (API_LabelValues (ServerGroupState_apiClient snapshot) label))
           /\ (forall matches startTime endTime,
                 Series s matches startTime endTime
                 = Ret (API_Series (ServerGroupState_apiClient snapshot)
                                   matches startTime endTime))).
Proof.
  intros Hrun.
  destruct (execution_ready_invariant steps New s tr) as [(_ & Hready & Hstate)|(_ & Hready & [snapshot Hstate])];
    [by left| done | |].
  - left. split; [done|]. unfold State. by rewrite Hstate.
  - right. split; [done|]. exists snapshot.
    assert (State s = Some snapshot) as Hsome by (unfold State; by rewrite Hstate).
    unfold GetValue, Query, QueryRange, LabelValues, Series. rewrite Hsome. done.
Qed.

(** ** Target lists and updates *)

Lemma allTargets_app (a b : list (string * list targetgroup.Group)) :
  allTargets (a ++ b) = allTargets a ++ allTargets b.
Proof. unfold allTargets. apply bind_app. Qed.

Lemma survivingTargets_app cfg (a b : list (string * list targetgroup.Group)) :
  survivingTargets cfg (a ++ b) = survivingTargets cfg a ++ survivingTargets cfg b.
Proof. unfold survivingTargets, relabelAll. by rewrite allTargets_app, omap_app. Qed.

Lemma length_survivingTargets cfg (targetGroupMap : list (string * list targetgroup.Group)) :
  (length (survivingTargets cfg targetGroupMap) <= length (allTargets targetGroupMap))%nat.
Proof.
  unfold survivingTargets, relabelAll.
  induction (allTargets targetGroupMap) as [|t ts IH]; csimpl; [done|].
  destruct (relabel_Process t (RelabelConfigs cfg)); simpl; lia.
Qed.

(** X9: A round never publishes more targets than the update holds, and the
  target list of an update that is made of two parts is the list for the
  first part followed by the list for the second: targets of different
  jobs and groups are neither merged nor reordered. *)
Theorem Sync_targets_follow_update (s : ServerGroup)
    (first second : list (string * list targetgroup.Group)) s' evs :
  syncIteration s (first ++ second) = Ret (s', evs) ->
  exists cfg newState,
    Cfg s = Some cfg /\ state s' = Some newState
    /\ Targets newState
       = map resolvedAddress (survivingTargets cfg first)
         ++ map resolvedAddress (survivingTargets cfg second)
    /\ (length (Targets newState)
        <= length (allTargets first) + length (allTargets second))%nat.
Proof.
  intros Hrun.
  apply syncIteration_Ret in Hrun as (newState & Hbuild & Hpublish).
  apply publish_Ret in Hpublish as (Hstate & _).
  destruct (buildState_Ret s (first ++ second) newState Hbuild)
    as (cfg & inner & Hcfg & Htargets & _).
  exists cfg, newState. split; [done|]. split; [done|].
  rewrite Htargets, survivingTargets_app, map_app. split; [done|].
  rewrite length_app, !length_map.
  pose proof (length_survivingTargets cfg first).
  pose proof (length_survivingTargets cfg second). lia.
Qed.

End WithWorld.

(** ** On the concrete world *)

Lemma Sync_targets_follow_update_witness :
  exists s' evs newState,
    syncIteration (E := world.servergroup_ext) (world.configured ["drop"])
      (world.update world.replicas ++ world.update [world.target "c:9090" "x"])
    = Ret (s', evs)
    /\ state s' = Some newState
    /\ Targets newState = ["a:9090"; "a:9090"] ++ ["c:9090"].
Proof.
  eexists _, _, _. split; [reflexivity|].
  destruct (Sync_targets_follow_update (E := world.servergroup_ext)
              (world.configured ["drop"])
              (world.update world.replicas) (world.update [world.target "c:9090" "x"])
              _ _ eq_refl)
    as (cfg & newState & Hcfg & Hstate & Htargets & _).
  injection Hcfg as <-. injection Hstate as <-.
  split; [reflexivity|]. exact Htargets.
Defined.

Lemma ApplyConfig_success_witness :
  ApplyConfig (E := world.servergroup_ext) world.fresh (Some (world.config "" ["drop"]))
  = Ret (world.configured ["drop"], None)
  /\ Cfg (world.configured ["drop"]) = Some (world.config "" ["drop"])
  /\ targetManager (world.configured ["drop"]) = {[ "foo" := ["a:9090"; "b:9090"] ]}.
Proof.
  rewrite (ApplyConfig_success (E := world.servergroup_ext) world.fresh
             (world.config "" ["drop"]) "" {[ "foo" := ["a:9090"; "b:9090"] ]}
             eq_refl eq_refl).
  repeat split; reflexivity.
Defined.

Lemma ApplyConfig_keeps_snapshot_witness :
  exists s' err,
    ApplyConfig (E := world.servergroup_ext)
      world.published (Some (world.config "/missing" [])) = Ret (s', Some err)
    /\ State s' = State world.published
    /\ Targets <$> State s' = Some ["a:9090"; "a:9090"].
Proof.
  eexists _, _. split; [reflexivity|].
  destruct (ApplyConfig_keeps_snapshot (E := world.servergroup_ext)
              world.published (Some (world.config "/missing" [])) _ _ eq_refl)
    as (Hstate & _).
  split; [exact Hstate|]. rewrite Hstate. reflexivity.
Defined.

Lemma removePrivateLabels_only_deletes_witness :
  removePrivateLabels {[ "job" := "x"; "zone" := "eu" ]}
  = ({[ "job" := "x"; "zone" := "eu" ]} : gmap string string).
Proof.
  apply (removePrivateLabels_only_deletes {[ "job" := "x"; "zone" := "eu" ]}).
  intros name [value Hname].
  apply lookup_insert_Some in Hname as [[<- _]|[_ Hname]]; [reflexivity|].
  apply lookup_singleton_Some in Hname as [<- _]. reflexivity.
Defined.

Lemma Sync_leaf_clients_witness :
  exists newState,
    state world.published = Some newState
    /\ Forall2
         (leafFor (E := world.servergroup_ext) (world.config "" ["drop"])
            {| Client_Transport :=
                 newRoundTripper (T := world.types) (world.config "" ["drop"]) "" |})
         (survivingTargets (E := world.servergroup_ext) (world.config "" ["drop"])
            (world.update world.replicas))
         (leafClients (ServerGroupState_apiClient newState)).
Proof.
  eapply (Sync_leaf_clients (E := world.servergroup_ext)
            (world.configured ["drop"]) (world.config "" ["drop"])
            {| Client_Transport :=
                 newRoundTripper (T := world.types) (world.config "" ["drop"]) "" |}
            (world.update world.replicas)); reflexivity.
Defined.

Lemma Sync_composed_client_witness :
  exists cfg newState leaves,
    Cfg (world.configured ["drop"]) = Some cfg
    /\ state world.published = Some newState
    /\ length leaves = length (Targets newState)
    /\ ServerGroupState_apiClient newState
       = if IgnoreError cfg
         then IgnoreErrorAPI
                (NewMultiAPI leaves (GetAntiAffinity (Ext := world.servergroup_ext) cfg)
                             (Targets newState) 1)
         else NewMultiAPI leaves (GetAntiAffinity (Ext := world.servergroup_ext) cfg)
                          (Targets newState) 1.
Proof.
  eapply (Sync_composed_client (E := world.servergroup_ext)
            (world.configured ["drop"]) (world.update world.replicas)).
  reflexivity.
Defined.

Lemma Sync_snapshot_from_update_alone_witness :
  exists s1' evs1 s2' evs2,
    syncIteration (E := world.servergroup_ext)
      (world.configured ["drop"]) (world.update [world.target "c:9090" "x"]) = Ret (s1', evs1)
    /\ syncIteration (E := world.servergroup_ext)
         world.published (world.update [world.target "c:9090" "x"]) = Ret (s2', evs2)
    /\ state s1' = state s2' /\ is_Some (state s1').
Proof.
  eexists _, _, _, _. split; [reflexivity|]. split; [reflexivity|].
  eapply (Sync_snapshot_from_update_alone (E := world.servergroup_ext)
            (world.configured ["drop"]) world.published (world.update [world.target "c:9090" "x"]));
    reflexivity.
Defined.

Lemma Sync_empty_round_witness :
  exists s' evs,
    syncIteration (E := world.servergroup_ext)
      (withCfg world.fresh (Some (world.config "" ["job"])))
      (world.update world.replicas) = Ret (s', evs)
    /\ Targets <$> state s' = Some [].
Proof.
  destruct (Sync_empty_round (E := world.servergroup_ext)
              (withCfg world.fresh (Some (world.config "" ["job"])))
              (world.config "" ["job"]) (world.update world.replicas)
              eq_refl eq_refl (fun _ => eq_refl)) as (s' & evs & Hrun & Hstate).
  exists s', evs. split; [exact Hrun|]. by rewrite Hstate.
Defined.

Lemma Sync_unconfigured_panics_witness :
  Sync (E := world.servergroup_ext) world.fresh [[]; world.update world.replicas]
  = ([], Panic PanicNilDereference)
  /\ Sync (E := world.servergroup_ext)
       (withCfg world.fresh (Some (world.config "" [])))
       [world.update world.replicas]
     = ([], Panic PanicNilDereference).
Proof.
  destruct (Sync_unconfigured_panics (E := world.servergroup_ext)
              world.fresh [] [world.update world.replicas]) as [Hnil _].
  destruct (Sync_unconfigured_panics (E := world.servergroup_ext)
              (withCfg world.fresh (Some (world.config "" [])))
              (world.update world.replicas) []) as [_ Hclient].
  split; [exact (Hnil eq_refl)|].
  apply (Hclient (world.config "" [])); [reflexivity..|]. discriminate.
Defined.


Lemma reload_takes_effect_next_round_witness :
  exists s1 err s2 evs,
    ApplyConfig (E := world.servergroup_ext)
      world.published (Some (world.config "/missing" [])) = Ret (s1, Some err)
    /\ syncIteration (E := world.servergroup_ext) s1 (world.update world.replicas)
       = Ret (s2, evs)
    /\ Targets <$> state s2 = Some ["a:9090"; "b:9090"; "a:9090"]
    /\ Client s1 = Client world.published.
Proof.
  eexists _, _, _, _. split; [reflexivity|]. split; [reflexivity|].
  destruct (reload_takes_effect_next_round (E := world.servergroup_ext)
              world.published (Some (world.config "/missing" [])) _ _
              (world.update world.replicas) _ _ eq_refl eq_refl)
    as (c & newState & Hc & Hstate & Htargets & Hclient & _).
  injection Hc as <-. split; [|exact Hclient].
  rewrite Hstate. simpl. rewrite Htargets. reflexivity.
Defined.

Lemma Ready_closed_means_queries_answer_witness :
  let run :=
    execution (E := world.servergroup_ext) (New (E := world.servergroup_ext))
      [ Reload (Some (world.config "" ["drop"]));
        Received (world.update world.replicas) ] in
  exists s snapshot,
    run = (run.1, Ret s)
    /\ Ready s = ChanClosed
    /\ State s = Some snapshot
    /\ GetValue (E := world.servergroup_ext) s 0 60 ["up"]
       = Ret (@API_GetValue world.types _
                (@API_methods world.types world.servergroup_ext)
                (ServerGroupState_apiClient snapshot) 0 60 ["up"]).
Proof.
  intros run. eexists _, _. split; [reflexivity|].
  destruct (Ready_closed_means_queries_answer (E := world.servergroup_ext)
              [ Reload (Some (world.config "" ["drop"]));
                Received (world.update world.replicas) ] _ run.1 eq_refl)
    as [[Hopen _]|(Hclosed & snapshot & Hstate & Hget & _)]; [discriminate Hopen|].
  split; [exact Hclosed|]. split; [reflexivity|]. apply Hget.
Defined.

End ServerGroupMore.

(** * Further properties of the query adapter *)
Module ProxyQuerierMore.
Import proxyquerier.


Section WithWorld.
Context `{E : Ext} {C : Type} `{A : !promclient_API C}.

(** X14: Whatever the request and the answers of the client, [Select] issues at
  most one client call, and exactly one when select parameters are given;
  it returns no warnings, and it returns a series set exactly when it
  returns no error. *)
Theorem Select_one_call_one_outcome (h : ProxyQuerier)
    (selectParams : option SelectParams) (matchers : list Matcher) :
  let r := Select h selectParams matchers in
  (length (calls r) <= 1)%nat
  /\ (is_Some selectParams -> length (calls r) = 1%nat)
  /\ (result r).1.2 = []
  /\ ((result r).1.1 = None <-> is_Some (result r).2).
Proof.
  unfold Select, Client_Series, Client_GetValue, seriesSetOf.
  destruct selectParams as [selectParams|]; simpl.
  - destruct (API_GetValue _ _ _ _) as [value [err|]]; simpl;
      repeat split; first [done | lia | by intros [? ?] | by intros _; eexists].
  - destruct (MatcherToString matchers) as [matcherString [err|]]; simpl.
    + repeat split; first [done | lia | by intros [? ?] | by intros _; eexists].
    + destruct (API_Series _ _ _ _) as [labelsets [err|]]; simpl;
        repeat split; first [done | lia | by intros [? ?] | by intros _; eexists].
Qed.


(** X16: [LabelValues] asks the client once, for the very label name, and hands
  its values on in the same order, none added or left out; on an error of
  the client it returns no values. *)
Theorem LabelValues_passes_values (h : ProxyQuerier) (name : string) :
  calls (LabelValues h name) = [CallLabelValues name]
  /\ (forall values,
        API_LabelValues (Client h) name = (values, None) ->
        result (LabelValues h name) = (values, None))
  /\ (forall values err,
        API_LabelValues (Client h) name = (values, Some err) ->
        (result (LabelValues h name)).1 = []).
Proof.
  unfold LabelValues, Client_LabelValues. simpl.
  destruct (API_LabelValues _ _) as [values [err|]]; simpl.
  - split; [done|]. split; [done|]. by intros ? ? [= <- <-].
  - split; [done|]. split; [|done]. intros ? [= <-]. by rewrite map_id.
Qed.

End WithWorld.

(** ** On the concrete world *)

Lemma Select_one_call_one_outcome_witness :
  length (calls (Select (E := world.proxyquerier_ext) (A := world.backend)
                   (world.querier [world.target "a:9090" "x"])
                   (Some {| SelectParams_Start := 0; SelectParams_End := 60;
                            Step := 0; Func := "" |}) ["up"])) = 1%nat.
Proof.
  apply (Select_one_call_one_outcome (E := world.proxyquerier_ext) (A := world.backend)).
  by eexists.
Defined.


Lemma LabelValues_passes_values_witness :
  let h := @Build_ProxyQuerier world.types (list string) 1000 2000 ["eu"; "us"; "eu"] None in
  result (LabelValues (A := world.labelled) h "zone") = (["eu"; "us"; "eu"], None).
Proof.
  intros h.
  apply (LabelValues_passes_values (A := world.labelled) h "zone").
  reflexivity.
Defined.

End ProxyQuerierMore.

(** * The reloadable wrappers *)
Module ProxyConfigSpec.
Import proxyconfig.

Section WithConfig.
Context {promConfig Config : Type} (PromConfig : Config -> promConfig).
Context {R : Type} `{!PromReloadable (promConfig := promConfig) R}.

(** X17: A wrapped [PromReloadable] is called with a non-nil pointer or not at
  all: on a nil configuration the wrapper panics before the call, otherwise
  it calls the wrapped value once with the [PromConfig] of the
  configuration and returns its error as it is; a panic of the wrapped
  value is the panic of the wrapper. *)
Theorem wrapped_reloadable_gets_PromConfig (p : PromReloadableWrap R) (c : option Config) :
  (c = None ->
   PromReloadableWrap_ApplyConfig PromConfig p c = Panic PanicNilDereference)
  /\ (forall p' err,
        PromReloadableWrap_ApplyConfig PromConfig p c = Ret (p', err) ->
        exists cfg,
          c = Some cfg
          /\ PromReloadable_ApplyConfig (R_ p) (Some (PromConfig cfg)) = Ret (R_ p', err))
  /\ (forall cfg panic,
        c = Some cfg ->
        PromReloadable_ApplyConfig (R_ p) (Some (PromConfig cfg)) = Panic panic ->
        PromReloadableWrap_ApplyConfig PromConfig p c = Panic panic).
Proof.
  unfold PromReloadableWrap_ApplyConfig. split; [intros ->; reflexivity|]. split.
  - intros p' err. destruct c as [cfg|]; simpl; [|intros Hnil; discriminate Hnil].
    destruct (PromReloadable_ApplyConfig _ _) as [[r err']|panic] eqn:Hcall; simpl;
      [|intros Hpanic; discriminate Hpanic].
    intros [= <- <-]. exists cfg. split; [reflexivity|]. simpl. exact Hcall.
  - intros cfg panic -> Hpanic. simpl. by rewrite Hpanic.
Qed.

End WithConfig.

(** A configuration that is a pair of a job name and a reload count, and a
  function that rejects the empty job name. *)
Lemma wrapped_reloadable_gets_PromConfig_witness :
  let check (cfg : option string) : Go (option error) :=
    match cfg with
    | Some "" => Ret (Some (errors_New "no job"))
    | _ => Ret None
    end in
  PromReloadableWrap_ApplyConfig (fst : string * nat -> string)
    (WrapPromReloadable {| F := check |}) None
  = Panic PanicNilDereference
  /\ exists cfg,
       Some ("", 3%nat) = Some cfg
       /\ PromReloadable_ApplyConfig {| F := check |} (Some (fst cfg))
          = Ret ({| F := check |}, Some (errors_New "no job")).
Proof.
  intros check.
  destruct (wrapped_reloadable_gets_PromConfig (fst : string * nat -> string)
              (WrapPromReloadable {| F := check |}) None) as (Hnil & _).
  destruct (wrapped_reloadable_gets_PromConfig (fst : string * nat -> string)
              (WrapPromReloadable {| F := check |}) (Some ("", 3%nat)))
    as (_ & Hcall & _).
  split; [exact (Hnil eq_refl)|].
  exact (Hcall (WrapPromReloadable {| F := check |}) (Some (errors_New "no job")) eq_refl).
Defined.

End ProxyConfigSpec.
